(** * datasets-cli: the argument router of [datasets/commands/datasets_cli.py]

    A shallow embedding of the two functions of the module,
    [parse_unknown_args] and [main], and of the part of Python's [argparse]
    that [main] drives, followed by the properties of the router.

    Python values are modelled as follows.
    - [str] is [string], the UTF-8 bytes of the text, and the command line
      is a [list string].  Where Python looks at the class of a character
      (the decimal digits of the one regular expression argparse uses) the
      bytes are decoded to code points; the option strings that parsers
      declare are ASCII.
    - [dict] with string keys is [gmap string _]; assignment to a key that
      is already present replaces its value.
    - Output, calls into the command objects and the two ways a process can
      stop ([SystemExit] and an uncaught exception) are made explicit by a
      small trace-and-halt monad. *)

From Stdlib Require Import ZArith Ascii String.
From stdpp Require Import base option list gmap fin_maps fin_sets strings.

Local Open Scope string_scope.
Local Open Scope list_scope.
Local Open Scope nat_scope.

(** ** Python string and list primitives *)

Module Py.

(** [s.lstrip(c)] for a one-character set [c]. *)
Fixpoint lstrip (c : ascii) (s : string) : string :=
  match s with
  | String a s' => if Ascii.eqb a c then lstrip c s' else s
  | EmptyString => EmptyString
  end.

(** [l[::2]]. *)
Fixpoint step2 {A} (l : list A) : list A :=
  match l with
  | [] => []
  | [x] => [x]
  | x :: _ :: r => x :: step2 r
  end.

(** [{key_of k: v for k, v in kvs}]: the comprehension assigns the items
    in iteration order. *)
Definition dict_of {A V} (key_of : A → string) (kvs : list (A * V))
  : gmap string V :=
  foldl (λ d kv, <[key_of kv.1 := kv.2]> d) ∅ kvs.

(** [c * n], the string of [n] characters [c]. *)
Fixpoint times (c : ascii) (n : nat) : string :=
  match n with
  | 0 => EmptyString
  | S n' => String c (times c n')
  end.

(** [s.startswith(p)]. *)
Definition startswith (s p : string) : bool := String.prefix p s.

(** [c in s]. *)
Fixpoint contains (c : ascii) (s : string) : bool :=
  match s with
  | EmptyString => false
  | String a s' => Ascii.eqb a c || contains c s'
  end.

(** [s.split(c, 1)] when [c in s]: the text before and after the first
    occurrence of [c]. *)
Fixpoint split1 (c : ascii) (s : string) : option (string * string) :=
  match s with
  | EmptyString => None
  | String a s' =>
      if Ascii.eqb a c then Some (EmptyString, s')
      else prod_map (String a) id <$> split1 c s'
  end.

(** A continuation byte of UTF-8 and the six bits it carries. *)
Definition continuation (c : ascii) : option N :=
  let n := N_of_ascii c in
  if ((128 <=? n) && (n <? 192))%N then Some (n - 128)%N else None.

(** The code points of a [str] that was decoded from the bytes [s] the way
    [sys.argv] is, as UTF-8 with the [surrogateescape] handler: a byte that
    starts no well-formed sequence becomes the lone surrogate
    [0xDC00 + byte], and decoding goes on with the next byte. *)
Fixpoint code_points (s : string) : list N :=
  match s with
  | EmptyString => []
  | String b0 r0 =>
      let n0 := N_of_ascii b0 in
      let undecodable := (56320 + n0)%N in
      if (n0 <? 128)%N then n0 :: code_points r0 else
      match r0 with
      | EmptyString => [undecodable]
      | String b1 r1 =>
          match continuation b1 with
          | None => undecodable :: code_points r0
          | Some c1 =>
              if ((194 <=? n0) && (n0 <? 224))%N
              then ((n0 - 192) * 64 + c1)%N :: code_points r1 else
              match r1 with
              | EmptyString => undecodable :: code_points r0
              | String b2 r2 =>
                  match continuation b2 with
                  | None => undecodable :: code_points r0
                  | Some c2 =>
                      let cp3 := (((n0 - 224) * 64 + c1) * 64 + c2)%N in
                      if ((224 <=? n0) && (n0 <? 240))%N then
                        if ((2048 <=? cp3)
                            && negb ((55296 <=? cp3) && (cp3 <? 57344)))%N
                        then cp3 :: code_points r2
                        else undecodable :: code_points r0
                      else
                      match r2 with
                      | EmptyString => undecodable :: code_points r0
                      | String b3 r3 =>
                          match continuation b3 with
                          | None => undecodable :: code_points r0
                          | Some c3 =>
                              let cp4 :=
                                ((((n0 - 240) * 64 + c1) * 64 + c2) * 64
                                 + c3)%N in
                              if ((240 <=? n0) && (n0 <? 245)
                                  && (65536 <=? cp4) && (cp4 <? 1114112))%N
                              then cp4 :: code_points r3
                              else undecodable :: code_points r0
                          end
                      end
                  end
              end
          end
      end
  end.

(** The decimal digits of Unicode 14.0, the characters that [\d] matches in
    a [str] pattern of Python 3.11: the first code point of each run and the
    length of the run. *)
Definition decimal_digits : list (N * N) :=
  [(48, 10); (1632, 10); (1776, 10); (1984, 10); (2406, 10); (2534, 10);
   (2662, 10); (2790, 10); (2918, 10); (3046, 10); (3174, 10); (3302, 10);
   (3430, 10); (3558, 10); (3664, 10); (3792, 10); (3872, 10); (4160, 10);
   (4240, 10); (6112, 10); (6160, 10); (6470, 10); (6608, 10); (6784, 10);
   (6800, 10); (6992, 10); (7088, 10); (7232, 10); (7248, 10); (42528, 10);
   (43216, 10); (43264, 10); (43472, 10); (43504, 10); (43600, 10);
   (44016, 10); (65296, 10); (66720, 10); (68912, 10); (69734, 10);
   (69872, 10); (69942, 10); (70096, 10); (70384, 10); (70736, 10);
   (70864, 10); (71248, 10); (71360, 10); (71472, 10); (71904, 10);
   (72016, 10); (72784, 10); (73040, 10); (73120, 10); (92768, 10);
   (92864, 10); (93008, 10); (120782, 50); (123200, 10); (123632, 10);
   (125264, 10); (130032, 10)]%N.

Definition isdecimal (cp : N) : bool :=
  existsb (λ r : N * N, ((r.1 <=? cp) && (cp <? r.1 + r.2))%N) decimal_digits.

End Py.

(** ** [parse_unknown_args] *)

(** The pairs [zip(unknown_args[::2], unknown_args[1::2])]. *)
Definition unknown_pairs (unknown_args : list string) : list (string * string) :=
  zip (Py.step2 unknown_args) (Py.step2 (drop 1 unknown_args)).

Definition parse_unknown_args (unknown_args : list string) : gmap string string :=
  Py.dict_of (Py.lstrip "-") (unknown_pairs unknown_args).

(** ** Effects: a trace of observable events and the ways a run can stop *)

(** Error messages of [ArgumentParser.error]. *)
Inductive parse_error :=
  | InvalidChoice (value : string)
  | AmbiguousOption (option : string)
  | ExpectedOneArgument (option_string : string)
  | IgnoredExplicitArgument (explicit_arg : string).

(** The actions a parser can hold under an option string. *)
Inductive action :=
  | HelpAction                         (* add_help: nargs=0, prints and exits *)
  | StoreAction (dest : string)        (* action="store", nargs=None *)
  | StoreTrueAction (dest : string).   (* action="store_true", nargs=0 *)

Section Router.

Context {service exn : Type}.

(** The attributes a parse has set on the [Namespace], each with the
    argument strings its action received; an attribute that is absent still
    has its default. *)
Definition attrs := gmap string (list string).

(** A factory is called as [func(args, **kwargs)] and returns the service or
    raises. *)
Definition factory := attrs → gmap string string → exn + service.

(** [prog] names the parser that writes: [None] is the tool's own parser,
    [Some name] the parser of subcommand [name]. *)
Inductive event :=
  | PrintHelp (prog : option string)                      (* stdout *)
  | PrintError (prog : option string) (e : parse_error)   (* usage and message, stderr *)
  | CallFunc (func : factory) (args : attrs) (kwargs : gmap string string)
  | CallRun (s : service).

Inductive halt :=
  | SystemExit (code : Z)
  | Uncaught (e : exn).

Definition M (A : Type) : Type := list event * (halt + A).

#[export] Instance M_ret : MRet M := λ A x, ([], inr x).
#[export] Instance M_bind : MBind M := λ A B k m,
  match m with
  | (t, inl h) => (t, inl h)
  | (t, inr x) => let '(t', r) := k x in (t ++ t', r)
  end.

Definition emit (e : event) : M unit := ([e], inr tt).
Definition stop {A} (h : halt) : M A := ([], inl h).

(** [sys.exit(code)] and the builtin [exit(code)]. *)
Definition exit {A} (code : Z) : M A := stop (SystemExit code).

(** The status the operating system sees: the code of a [SystemExit], 1 for
    an exception that nothing caught, 0 when [main] returns.  The exceptions
    [exn] of the command objects are their errors; a [SystemExit] that a
    command object raises itself is not among them. *)
Definition exit_status {A} (r : M A) : Z :=
  match r.2 with
  | inl (SystemExit code) => code
  | inl (Uncaught _) => 1
  | inr _ => 0
  end.

(** ** The part of [argparse] that the router drives

    [main] builds an [ArgumentParser] with [allow_abbrev=False], adds a
    subparser collection to it and calls [parse_known_args].  The definitions
    below follow the methods of CPython's [Lib/argparse.py] that this call
    goes through ([_parse_optional], [_get_option_tuples],
    [_parse_known_args] with its [consume_optional] and
    [consume_positionals], [_SubParsersAction.__call__], [_check_value],
    [error]) for parsers whose options are help, store and store-true
    actions.  The conversion of argument strings to attribute values is left
    out: the namespace records the strings each action received. *)

Record namespace := Namespace {
  ns_attrs : attrs;
  ns_func : option factory;      (* the attribute [func], when set *)
}.

(** [parser.print_help()]. *)
Definition print_help (prog : option string) : M unit := emit (PrintHelp prog).

(** [parser.error(message)]: usage and message on stderr, then [exit(2)]. *)
Definition error {A} (prog : option string) (e : parse_error) : M A :=
  emit (PrintError prog e) ;; exit 2.

Definition is_dash (c : ascii) : bool := Ascii.eqb c "-".
(** [\d+$] from the start of the characters [cps]; [seen] tells that a
    digit was read.  [$] also matches before a final newline. *)
Fixpoint digits_to_end (seen : bool) (cps : list N) : bool :=
  match cps with
  | [] => seen
  | cp :: cps' =>
      if Py.isdecimal cp then digits_to_end true cps'
      else seen && (cp =? 10)%N && bool_decide (cps' = [])
  end.

Fixpoint skip_digits (cps : list N) : list N :=
  match cps with
  | cp :: cps' => if Py.isdecimal cp then skip_digits cps' else cps
  | [] => []
  end.

(** [_negative_number_matcher], the expression [^-\d+$|^-\d*\.\d+$]; 45 and
    46 are the dash and the dot. *)
Definition negative_number (s : string) : bool :=
  match Py.code_points s with
  | cp :: r =>
      (cp =? 45)%N &&
      (digits_to_end false r ||
       match skip_digits r with
       | d :: r' => (d =? 46)%N && digits_to_end false r'
       | [] => false
       end)
  | [] => false
  end.

(** [(action, option_string, explicit_arg)]; the action is [None] for an
    option string the parser does not know. *)
Definition option_tuple : Type := option action * string * option string.

Section Parser.

(** [_option_string_actions], [allow_abbrev] and the program name of one
    parser. *)
Variable option_string_actions : gmap string action.
Variable allow_abbrev : bool.
Variable prog : option string.

Definition has_negative_number_optionals : bool :=
  existsb (λ kv, negative_number kv.1) (map_to_list option_string_actions).

(** [_get_option_tuples], called on strings of two characters or more that
    start with a dash. *)
Definition get_option_tuples (option_string : string) : list option_tuple :=
  match option_string with
  | String c0 (String c1 tail) =>
      if is_dash c1 then
        if allow_abbrev then
          let '(option_prefix, explicit_arg) :=
            match Py.split1 "=" option_string with
            | Some (p, e) => (p, Some e)
            | None => (option_string, None)
            end in
          omap (λ kv : string * action,
                  if Py.startswith kv.1 option_prefix
                  then Some (Some kv.2, kv.1, explicit_arg) else None)
               (map_to_list option_string_actions)
        else []
      else
        let short_option_prefix := String c0 (String c1 EmptyString) in
        let short_explicit_arg := tail in
        omap (λ kv : string * action,
                if String.eqb kv.1 short_option_prefix
                then Some (Some kv.2, kv.1, Some short_explicit_arg)
                else if Py.startswith kv.1 option_string
                then Some (Some kv.2, kv.1, None) else None)
             (map_to_list option_string_actions)
  | _ => []
  end.

(** [_parse_optional]: [inr None] is a positional, [inl] the error of an
    ambiguous abbreviation. *)
Definition parse_optional (arg_string : string)
  : parse_error + option option_tuple :=
  match arg_string with
  | EmptyString => inr None
  | String c rest =>
      if negb (is_dash c) then inr None else
      match option_string_actions !! arg_string with
      | Some a => inr (Some (Some a, arg_string, None))
      | None =>
          if String.eqb rest EmptyString then inr None else
          let by_equals :=
            '(option_string, explicit_arg) ← Py.split1 "=" arg_string;
            a ← option_string_actions !! option_string;
            Some (Some a, option_string, Some explicit_arg) in
          match by_equals with
          | Some t => inr (Some t)
          | None =>
              match get_option_tuples arg_string with
              | _ :: _ :: _ => inl (AmbiguousOption arg_string)
              | [t] => inr (Some t)
              | [] =>
                  if negative_number arg_string
                     && negb has_negative_number_optionals then inr None
                  else if Py.contains " " arg_string then inr None
                  else inr (Some (None, arg_string, None))
              end
          end
      end
  end.

(** The parser's one positional, when it has one: the subparsers action
    ([nargs=PARSER]), which takes every remaining argument string and returns
    the namespace of the selected subparser with the strings that parser did
    not recognise. *)
Variable subparsers : option (list string → M (namespace * list string)).

(** One letter of [arg_strings_pattern]. *)
Inductive pattern :=
  | PatA                        (* 'A': an argument *)
  | PatDashes                   (* '-': the string "--" *)
  | PatO (t : option_tuple).    (* 'O': an option string *)

(** The first loop of [_parse_known_args]: every string after ["--"] is an
    argument, the others are classified by [parse_optional]. *)
Fixpoint arg_strings_pattern (arg_strings : list string)
  : parse_error + list (string * pattern) :=
  match arg_strings with
  | [] => inr []
  | arg_string :: rest =>
      if String.eqb arg_string "--"
      then inr ((arg_string, PatDashes) :: ((λ s, (s, PatA)) <$> rest))
      else
        match parse_optional arg_string with
        | inl e => inl e
        | inr o =>
            match arg_strings_pattern rest with
            | inl e => inl e
            | inr ps =>
                inr ((arg_string, from_option PatO PatA o) :: ps)
            end
        end
  end.

(** [match_argument(action, 'A')]: a store action takes one argument string,
    the others none. *)
Definition takes_argument (a : action) : bool :=
  match a with
  | StoreAction _ => true
  | HelpAction | StoreTrueAction _ => false
  end.

(** The [while True] loop of [consume_optional] for an option string that
    came with an explicit argument ([--opt=arg], [-oarg], [-xyz]).  The result
    is the action tuples completed so far and, when the explicit argument was
    used up by single-dash flags, the action that still takes its arguments
    from the following strings. *)
Fixpoint consume_explicit (a : action) (option_string explicit_arg : string)
    (action_tuples : list (action * list string))
  : parse_error + (list (action * list string) * option action) :=
  if takes_argument a
  then inr (action_tuples ++ [(a, [explicit_arg])], None)
  else
    match option_string, explicit_arg with
    | String char (String c1 _), String e0 new_explicit_arg =>
        let option_string' := String char (String e0 EmptyString) in
        if is_dash c1 then inl (IgnoredExplicitArgument explicit_arg)
        else
          match option_string_actions !! option_string' with
          | None => inl (IgnoredExplicitArgument explicit_arg)
          | Some a' =>
              match new_explicit_arg with
              | EmptyString => inr (action_tuples ++ [(a, [])], Some a')
              | String _ _ =>
                  consume_explicit a' option_string' new_explicit_arg
                                   (action_tuples ++ [(a, [])])
              end
          end
    | _, _ => inl (IgnoredExplicitArgument explicit_arg)
    end.

(** [take_action]: the help action prints and exits with status 0, a store
    action sets its destination. *)
Definition take_action (ns : namespace) (a : action)
    (argument_strings : list string) : M namespace :=
  match a with
  | HelpAction => print_help prog ;; exit 0
  | StoreAction dest | StoreTrueAction dest =>
      mret (Namespace (<[dest := argument_strings]> (ns_attrs ns)) (ns_func ns))
  end.

Fixpoint take_actions (ns : namespace)
    (action_tuples : list (action * list string)) : M namespace :=
  match action_tuples with
  | [] => mret ns
  | (a, argument_strings) :: rest =>
      ns' ← take_action ns a argument_strings; take_actions ns' rest
  end.

(** [setattr(namespace, key, value)] for every attribute of the subparser's
    namespace. *)
Definition merge_namespace (ns sub : namespace) : namespace :=
  Namespace (ns_attrs sub ∪ ns_attrs ns)
            (match ns_func sub with Some f => Some f | None => ns_func ns end).

(** The subparsers action on the strings from [start_index] on, and the
    unrecognised strings it leaves behind the parser's own extras. *)
Definition take_subparsers (act : list string → M (namespace * list string))
    (values : list string) (ns : namespace) (extras : list string)
  : M (namespace * list string) :=
  '(sub, unrecognized) ← act values;
  mret (merge_namespace ns sub, extras ++ unrecognized).

(** The second loop of [_parse_known_args], [consume_positionals] and
    [consume_optional] alternating over the classified strings. *)
Fixpoint consume (toks : list (string * pattern)) (ns : namespace)
    (extras : list string) : M (namespace * list string) :=
  match toks with
  | [] => mret (ns, extras)
  | (arg_string, PatO (None, _, _)) :: rest =>
      consume rest ns (extras ++ [arg_string])
  | (arg_string, PatO (Some a, option_string, explicit_arg)) :: rest =>
      match
        match explicit_arg with
        | None => inr ([], Some a)
        | Some e => consume_explicit a option_string e []
        end
      with
      | inl err => error prog err
      | inr (action_tuples, None) =>
          ns' ← take_actions ns action_tuples; consume rest ns' extras
      | inr (action_tuples, Some a') =>
          if takes_argument a' then
            match rest with
            | (v, PatA) :: rest' =>
                ns' ← take_actions ns (action_tuples ++ [(a', [v])]);
                consume rest' ns' extras
            | _ => error prog (ExpectedOneArgument option_string)
            end
          else
            ns' ← take_actions ns (action_tuples ++ [(a', [])]);
            consume rest ns' extras
      end
  | (arg_string, PatA) :: rest =>
      match subparsers with
      | Some act => take_subparsers act (arg_string :: rest.*1) ns extras
      | None => consume rest ns (extras ++ [arg_string])
      end
  | (arg_string, PatDashes) :: rest =>
      match subparsers, rest with
      | Some act, _ :: _ => take_subparsers act (arg_string :: rest.*1) ns extras
      | _, _ => consume rest ns (extras ++ [arg_string])
      end
  end.

(** [parser.parse_known_args(args)] from the namespace [ns] that holds the
    parser's defaults. *)
Definition parse_known_args_from (ns : namespace) (args : list string)
  : M (namespace * list string) :=
  match arg_strings_pattern args with
  | inl e => error prog e
  | inr toks => consume toks ns []
  end.

End Parser.

(** ** The parser that [main] builds *)

(** Modelled from the spec: the result of the registration hooks
    [EnvironmentCommand.register_subcommand], [TestCommand.register_subcommand]
    and [DeleteFromHubCommand.register_subcommand], whose modules are not part
    of the source.  Each hook adds one parser to the subparser collection,
    declares the flags of its subcommand on it and attaches the factory with
    [set_defaults(func=...)]; the subcommand has flags only, and none of them
    is stored under the name [func]. *)
Record subparser := Subparser {
  sp_option_string_actions : gmap string action;
  sp_func : factory;
}.

(** The option strings every [ArgumentParser] starts with ([add_help]). *)
Definition help_options : gmap string action :=
  <["-h" := HelpAction]> (<["--help" := HelpAction]> ∅).

(** [_SubParsersAction]: the first string must be one of the choices, the
    rest goes to that subcommand's parser, which was created with the default
    [allow_abbrev=True]. *)
Definition subparsers_action (name_parser_map : gmap string subparser)
    (values : list string) : M (namespace * list string) :=
  match values with
  | [] => mret (Namespace ∅ None, [])
  | parser_name :: arg_strings =>
      match name_parser_map !! parser_name with
      | None => error None (InvalidChoice parser_name)
      | Some sp =>
          parse_known_args_from (sp_option_string_actions sp) true
            (Some parser_name) None
            (Namespace ∅ (Some (sp_func sp))) arg_strings
      end
  end.

(** [parser.parse_known_args()] of the top-level parser, which is built with
    [allow_abbrev=False] and holds the subparser collection
    [name_parser_map]. *)
Definition parse_known_args (name_parser_map : gmap string subparser)
    (argv : list string) : M (namespace * list string) :=
  parse_known_args_from help_options false None
    (Some (subparsers_action name_parser_map)) (Namespace ∅ None) argv.

(** ** [main] *)

(** [service.run()] of the command objects. *)
Context (run : service → option exn).

(** [args.func(args, **kwargs)]. *)
Definition call_func (func : factory) (args : namespace)
    (kwargs : gmap string string) : M service :=
  emit (CallFunc func (ns_attrs args) kwargs) ;;
  match func (ns_attrs args) kwargs with
  | inl e => stop (Uncaught e)
  | inr s => mret s
  end.

(** [service.run()]. *)
Definition call_run (s : service) : M unit :=
  emit (CallRun s) ;;
  match run s with
  | Some e => stop (Uncaught e)
  | None => mret tt
  end.

(** [main], from the parse on.  The statements before it build the parser
    and register the subcommands, which gives [name_parser_map], and set the
    logging verbosity, which none of the events below observes.  [argv] is
    [sys.argv[1:]].  The test [hasattr(args, "func")] is the match on
    [ns_func]; [exit(1)] raises, so the rest runs only in the other branch. *)
Definition main (name_parser_map : gmap string subparser)
    (argv : list string) : M unit :=
  '(args, unknown_args) ← parse_known_args name_parser_map argv;
  match ns_func args with
  | None => print_help None ;; exit 1
  | Some func =>
      let kwargs := parse_unknown_args unknown_args in
      service ← call_func func args kwargs;
      call_run service
  end.

End Router.

Arguments subparser : clear implicits.
Arguments namespace : clear implicits.
Arguments event : clear implicits.
Arguments halt : clear implicits.

(** ** The claims as the specification words them

    Four sentences of the specification do not hold of the code; they are
    stated here as predicates so that they can be refuted at an input. *)

(** Every even-indexed token, stripped, is a key of the mapping with the
    following token as its value, and the mapping has half as many entries
    as there are tokens. *)
Definition keeps_every_pair (l : list string) : Prop :=
  size (parse_unknown_args l) = length l / 2 ∧
  ∀ i k v, l !! (2 * i) = Some k → l !! (2 * i + 1) = Some v →
    parse_unknown_args l !! Py.lstrip "-" k = Some v.

(** An odd number of unknown tokens makes the invocation fail. *)
Definition odd_unknown_fails {service exn} (run : service → option exn)
    (name_parser_map : gmap string (subparser service exn))
    (argv : list string) : Prop :=
  ∀ t args unknown_args,
    parse_known_args name_parser_map argv = (t, inr (args, unknown_args)) →
    Nat.Odd (length unknown_args) →
    ∃ e, (main run name_parser_map argv).2 = inl (Uncaught e).

(** A name that is not registered behaves like no argument at all. *)
Definition unregistered_like_none {service exn} (run : service → option exn)
    (name_parser_map : gmap string (subparser service exn))
    (name : string) : Prop :=
  name_parser_map !! name = None →
  main run name_parser_map [name] = main run name_parser_map [].

(** Every [--key value] pair after the subcommand name reaches the factory as
    the extra option [key=value]. *)
Definition forwards_every_pair {service exn} (run : service → option exn)
    (name_parser_map : gmap string (subparser service exn))
    (name : string) (kvs : list (string * string)) : Prop :=
  ∀ k v, (k, v) ∈ kvs →
    ∃ func args kwargs t,
      (main run name_parser_map (name :: (kvs ≫= λ kv, [kv.1; kv.2]))).1
      = CallFunc func args kwargs :: t
      ∧ kwargs !! Py.lstrip "-" k = Some v.

(** The last two statements of [main]: build the service and run it. *)
Definition dispatch {service exn} (run : service → option exn)
    (func : @factory service exn) (args : namespace service exn)
    (kwargs : gmap string string) : @M service exn unit :=
  service ← call_func func args kwargs; call_run run service.

(** A classified string that [consume] leaves to the extras when the parser
    has no positional. *)
Definition is_extra (p : pattern) : bool :=
  match p with
  | PatO (Some _, _, _) => false
  | PatO (None, _, _) | PatA | PatDashes => true
  end.

(** An option string that matches none of the flags a subcommand declares,
    neither exactly nor as an abbreviation, and an argument string. *)
Definition undeclared_flag (opts : gmap string action) (k : string) : Prop :=
  k ≠ "--" ∧ parse_optional opts true k = inr (Some (None, k, None)).

Definition plain_argument (opts : gmap string action) (v : string) : Prop :=
  parse_optional opts true v = inr None.

(** The tokens [k1 v1 k2 v2 ...] of a list of pairs. *)
Definition tokens_of (kvs : list (string * string)) : list string :=
  kvs ≫= λ kv, [kv.1; kv.2].

(** The command-line spelling of a mapping of options: [--key value] for
    every entry. *)
Definition option_tokens (m : gmap string string) : list string :=
  tokens_of ((λ kv : string * string, ("--" +:+ kv.1, kv.2)) <$> map_to_list m).

(** The ways the parse phase can end: it returns without output, it prints a
    help text and exits with status 0, or it reports an error and exits with
    status 2. *)
Definition parse_stops {service exn A} (r : @M service exn A) : Prop :=
  (∃ x, r = ([], inr x))
  ∨ (∃ prog, r = ([PrintHelp prog], inl (SystemExit 0)))
  ∨ (∃ prog e, r = ([PrintError prog e], inl (SystemExit 2))).

(** An option string that the tool's own parser does not know. *)
Definition unknown_to_tool (u : string) : Prop :=
  u ≠ "--" ∧ parse_optional help_options false u = inr (Some (None, u, None)).

(** ** A concrete command table

    Services and exceptions are named by strings.  The environment command
    takes no extra options, the test command declares two flags, and the run
    of the delete command fails. *)
Module Example.

Definition test_options : gmap string action :=
  <["--name" := StoreAction "name"]>
    (<["--all_configs" := StoreTrueAction "all_configs"]> help_options).

Definition env_factory : @factory string string :=
  λ _ kwargs,
    if decide (kwargs = ∅) then inr "EnvironmentCommand" else inl "TypeError".

Definition commands : gmap string (subparser string string) :=
  <["env" := Subparser help_options env_factory]>
    (<["test" := Subparser test_options (λ _ _, inr "TestCommand")]>
       (<["delete_from_hub" :=
            Subparser help_options (λ _ _, inr "DeleteFromHubCommand")]> ∅)).

Definition run (s : string) : option string :=
  if String.eqb s "DeleteFromHubCommand" then Some "HTTPError" else None.

End Example.

(** * Properties *)

(** ** Pairing of the unknown tokens *)

Section Pairing.

Context {A : Type}.
Implicit Types l : list A.

(** Induction over a list two elements at a time. *)
Lemma list_pair_ind (P : list A → Prop) :
  P [] → (∀ x, P [x]) → (∀ x y l, P l → P (x :: y :: l)) → ∀ l, P l.
Proof.
  intros Hnil Hone Hstep l.
  cut (P l ∧ ∀ x, P (x :: l)); [tauto|].
  induction l as [|y l [IH1 IH2]]; split; auto.
Qed.

End Pairing.

Lemma unknown_pairs_nil : unknown_pairs [] = [].
Proof. reflexivity. Qed.

Lemma unknown_pairs_one x : unknown_pairs [x] = [].
Proof. reflexivity. Qed.

Lemma unknown_pairs_cons k v l :
  unknown_pairs (k :: v :: l) = (k, v) :: unknown_pairs l.
Proof. unfold unknown_pairs. destruct l; reflexivity. Qed.

Lemma length_unknown_pairs l : length (unknown_pairs l) = length l / 2.
Proof.
  induction l as [| x | x y l IH] using list_pair_ind; [done..|].
  rewrite unknown_pairs_cons. cbn [length]. rewrite IH.
  replace (S (S (length l))) with (length l + 1 * 2) by lia.
  rewrite Nat.div_add by lia. lia.
Qed.

Lemma unknown_pairs_lookup l i k v :
  unknown_pairs l !! i = Some (k, v) ↔
  l !! (2 * i) = Some k ∧ l !! (2 * i + 1) = Some v.
Proof.
  revert i. induction l as [| x | x y l IH] using list_pair_ind; intros i.
  - rewrite unknown_pairs_nil, !lookup_nil. split; [done|by intros [? _]].
  - rewrite unknown_pairs_one, lookup_nil.
    split; [done|]. intros [_ H]. by destruct i.
  - rewrite unknown_pairs_cons. destruct i as [|i].
    + cbn. split; [by intros [= -> ->]|by intros [[= ->] [= ->]]].
    + replace (2 * S i) with (S (S (2 * i))) by lia.
      replace (S (S (2 * i)) + 1) with (S (S (2 * i + 1))) by lia.
      cbn [lookup list_lookup]. apply IH.
Qed.

(** With an odd number of tokens the last one is in no pair. *)
Lemma unknown_pairs_odd l :
  Nat.Odd (length l) → unknown_pairs l = unknown_pairs (take (length l - 1) l).
Proof.
  induction l as [| x | x y l IH] using list_pair_ind; intros Hodd.
  - by destruct Hodd as [n Hn].
  - reflexivity.
  - assert (Nat.Odd (length l)) as Hl.
    { destruct Hodd as [n Hn]. cbn [length] in Hn. exists (n - 1). lia. }
    assert (0 < length l) by (destruct Hl; lia).
    cbn [length]. replace (S (S (length l)) - 1) with (S (S (length l - 1))) by lia.
    cbn [take]. rewrite !unknown_pairs_cons. f_equal. by apply IH.
Qed.

(** ** The dictionary comprehension *)

Section DictOf.

Context {A V : Type} (key_of : A → string).
Implicit Types kvs : list (A * V).

Lemma dict_of_nil : Py.dict_of key_of (@nil (A * V)) = ∅.
Proof. reflexivity. Qed.

Lemma dict_of_snoc kvs k v :
  Py.dict_of key_of (kvs ++ [(k, v)]) = <[key_of k := v]> (Py.dict_of key_of kvs).
Proof. unfold Py.dict_of. by rewrite foldl_snoc. Qed.

(** An entry of the dictionary comes from one of the items. *)
Lemma dict_of_lookup_Some kvs key v :
  Py.dict_of key_of kvs !! key = Some v →
  ∃ i k, kvs !! i = Some (k, v) ∧ key_of k = key.
Proof.
  induction kvs as [|[k' v'] kvs IH] using rev_ind.
  - by rewrite dict_of_nil, lookup_empty.
  - rewrite dict_of_snoc. destruct (decide (key_of k' = key)) as [Heq|Hne].
    + rewrite Heq, lookup_insert_eq. intros [= ->].
      exists (length kvs), k'. split; [|done].
      by rewrite lookup_app_r, Nat.sub_diag by lia.
    + rewrite lookup_insert_ne by done. intros (i & k & Hi & Hk)%IH.
      exists i, k. split; [|done]. by apply lookup_app_l_Some.
Qed.

(** Every item leaves an entry under its key. *)
Lemma dict_of_lookup_is_Some kvs i k v :
  kvs !! i = Some (k, v) → is_Some (Py.dict_of key_of kvs !! key_of k).
Proof.
  revert i. induction kvs as [|[k' v'] kvs IH] using rev_ind; intros i Hi.
  - by rewrite lookup_nil in Hi.
  - rewrite dict_of_snoc. destruct (decide (key_of k' = key_of k)) as [Heq|Hne].
    + rewrite Heq, lookup_insert_eq. by eexists.
    + rewrite lookup_insert_ne by done.
      apply lookup_app_Some in Hi as [Hi|[Hlen Hi]]; [by eapply IH|].
      destruct (i - length kvs); [|done]. by simplify_eq/=.
Qed.

(** The last item with a given key decides the value. *)
Lemma dict_of_lookup_last kvs i k v :
  kvs !! i = Some (k, v) →
  (∀ j k' v', i < j → kvs !! j = Some (k', v') → key_of k' ≠ key_of k) →
  Py.dict_of key_of kvs !! key_of k = Some v.
Proof.
  revert i. induction kvs as [|[k' v'] kvs IH] using rev_ind; intros i Hi Hlast.
  - by rewrite lookup_nil in Hi.
  - rewrite dict_of_snoc.
    apply lookup_app_Some in Hi as [Hi|[Hlen Hi]].
    + rewrite lookup_insert_ne.
      * apply (IH i); [done|]. intros j k'' v'' Hij Hj.
        apply (Hlast j k'' v''); [done|]. by apply lookup_app_l_Some.
      * apply (Hlast (length kvs) k' v').
        { by apply lookup_lt_Some in Hi. }
        by rewrite lookup_app_r, Nat.sub_diag by lia.
    + destruct (i - length kvs); [|done]. simplify_eq/=.
      apply lookup_insert_eq.
Qed.

Lemma dict_of_size_le kvs : size (Py.dict_of key_of kvs) ≤ length kvs.
Proof.
  induction kvs as [|[k v] kvs IH] using rev_ind; [done|].
  rewrite dict_of_snoc, length_app, map_size_insert. cbn.
  destruct (_ !! _); cbn; lia.
Qed.

(** Distinct keys: one entry per item. *)
Lemma dict_of_size_NoDup kvs :
  NoDup (key_of ∘ fst <$> kvs) → size (Py.dict_of key_of kvs) = length kvs.
Proof.
  induction kvs as [|[k v] kvs IH] using rev_ind; [done|].
  rewrite fmap_app, NoDup_app. cbn. intros (Hnd & Hnotin & _).
  rewrite dict_of_snoc, length_app, map_size_insert. cbn.
  destruct (_ !! _) as [w|] eqn:Hw; [|cbn; rewrite IH by done; lia].
  apply dict_of_lookup_Some in Hw as (i & k' & Hi & Hk').
  exfalso. apply (Hnotin (key_of k)); [|set_solver].
  apply list_elem_of_fmap. exists (k', w). split; [done|].
  by eapply list_elem_of_lookup_2.
Qed.

(** A repeated key: fewer entries than items. *)
Lemma dict_of_size_lt kvs i j ki vi kj vj :
  i < j → kvs !! i = Some (ki, vi) → kvs !! j = Some (kj, vj) →
  key_of ki = key_of kj →
  size (Py.dict_of key_of kvs) < length kvs.
Proof.
  revert i j. induction kvs as [|[k v] kvs IH] using rev_ind;
    intros i j Hij Hi Hj Hkey.
  - by rewrite lookup_nil in Hi.
  - rewrite dict_of_snoc, length_app, map_size_insert. cbn.
    apply lookup_app_Some in Hj as [Hj|[Hlen Hj]].
    + assert (kvs !! i = Some (ki, vi)) as Hi'.
      { apply lookup_app_Some in Hi as [?|[? _]]; [done|].
        apply lookup_lt_Some in Hj. lia. }
      specialize (IH i j Hij Hi' Hj Hkey).
      destruct (Py.dict_of key_of kvs !! key_of k); cbn; lia.
    + destruct (j - length kvs) eqn:Hd; [|done]. simplify_eq/=.
      assert (kvs !! i = Some (ki, vi)) as Hi'.
      { apply lookup_app_Some in Hi as [?|[? _]]; [done|lia]. }
      destruct (dict_of_lookup_is_Some kvs i ki vi Hi') as [w Hw].
      rewrite <- Hkey, Hw. pose proof (dict_of_size_le kvs). cbn. lia.
Qed.

End DictOf.

(** ** [parse_unknown_args] *)

Lemma unknown_pairs_keys l :
  Nat.Even (length l) → (unknown_pairs l).*1 = Py.step2 l.
Proof.
  induction l as [| x | x y l IH] using list_pair_ind; intros Hev.
  - reflexivity.
  - destruct Hev as [n Hn]. cbn in Hn. lia.
  - rewrite unknown_pairs_cons. cbn. f_equal. apply IH.
    destruct Hev as [n Hn]. cbn [length] in Hn. exists (n - 1). lia.
Qed.

(** The value of a key is the token after its last even-indexed occurrence
    that has a token after it. *)
Lemma parse_unknown_args_last l i k v :
  l !! (2 * i) = Some k → l !! (2 * i + 1) = Some v →
  (∀ j k', i < j → l !! (2 * j) = Some k' → is_Some (l !! (2 * j + 1)) →
           Py.lstrip "-" k' ≠ Py.lstrip "-" k) →
  parse_unknown_args l !! Py.lstrip "-" k = Some v.
Proof.
  intros Hk Hv Hlast. unfold parse_unknown_args.
  apply (dict_of_lookup_last _ _ i).
  - by apply unknown_pairs_lookup.
  - intros j k' v' Hij [Hk' Hv']%unknown_pairs_lookup.
    apply (Hlast j); [done..|by eexists].
Qed.

(** Every entry is a pair of adjacent tokens, the value untouched. *)
Lemma parse_unknown_args_lookup_Some l key v :
  parse_unknown_args l !! key = Some v →
  ∃ i k, l !! (2 * i) = Some k ∧ l !! (2 * i + 1) = Some v
         ∧ Py.lstrip "-" k = key.
Proof.
  intros (i & k & [Hk Hv]%unknown_pairs_lookup & Hkey)%dict_of_lookup_Some.
  by exists i, k.
Qed.

Lemma parse_unknown_args_size_le l :
  size (parse_unknown_args l) ≤ length l / 2.
Proof.
  rewrite <- length_unknown_pairs. apply dict_of_size_le.
Qed.

(** C1 (amended).  For every list of unknown tokens of even length n,
    [parse_unknown_args] returns a mapping whose keys are exactly the
    even-indexed tokens with their leading dashes stripped; each key holds the
    token that follows its last occurrence; the mapping has at most n/2
    entries, and exactly n/2 when the stripped keys are pairwise distinct. *)
Theorem parse_unknown_args_even (l : list string) :
  Nat.Even (length l) →
  size (parse_unknown_args l) ≤ length l / 2
  ∧ (NoDup (Py.lstrip "-" <$> Py.step2 l) →
     size (parse_unknown_args l) = length l / 2)
  ∧ (∀ key, is_Some (parse_unknown_args l !! key) ↔
            ∃ i k, l !! (2 * i) = Some k ∧ Py.lstrip "-" k = key)
  ∧ (∀ i k v, l !! (2 * i) = Some k → l !! (2 * i + 1) = Some v →
       (∀ j k', i < j → l !! (2 * j) = Some k' →
                Py.lstrip "-" k' ≠ Py.lstrip "-" k) →
       parse_unknown_args l !! Py.lstrip "-" k = Some v).
Proof.
  intros Hev. split_and!.
  - apply parse_unknown_args_size_le.
  - intros Hnd. rewrite <- length_unknown_pairs.
    apply dict_of_size_NoDup.
    by rewrite list_fmap_compose, unknown_pairs_keys.
  - intros key. split.
    + intros [v (i & k & Hk & _ & Hkey)%parse_unknown_args_lookup_Some].
      by exists i, k.
    + intros (i & k & Hk & <-).
      assert (is_Some (l !! (2 * i + 1))) as [v Hv].
      { apply lookup_lt_is_Some. apply lookup_lt_Some in Hk.
        destruct Hev as [n Hn]. lia. }
      apply (dict_of_lookup_is_Some _ _ i k v).
      by apply unknown_pairs_lookup.
  - intros i k v Hk Hv Hlast. apply (parse_unknown_args_last l i); [done..|].
    intros j k' Hij Hk' _. by apply (Hlast j).
Qed.

(** C8.  [parse_unknown_args] returns a mapping for every list.  On a list
    of odd length n the last token is dropped and nothing fails: the result is
    the mapping of the first n-1 tokens; its keys are exactly the stripped
    even-indexed tokens that have a token after them, each holding the token
    after its last such occurrence; it has at most floor(n/2) entries, and
    exactly that many when these keys are pairwise distinct. *)
Theorem parse_unknown_args_odd (l : list string) :
  Nat.Odd (length l) →
  ∃ m, parse_unknown_args l = m
    ∧ m = parse_unknown_args (take (length l - 1) l)
    ∧ size m ≤ length l / 2
    ∧ (NoDup (Py.lstrip "-" <$> Py.step2 (take (length l - 1) l)) →
       size m = length l / 2)
    ∧ (∀ key, is_Some (m !! key) ↔
              ∃ i k, 2 * i + 1 < length l ∧ l !! (2 * i) = Some k
                     ∧ Py.lstrip "-" k = key)
    ∧ (∀ i k v, l !! (2 * i) = Some k → l !! (2 * i + 1) = Some v →
         (∀ j k', i < j → 2 * j + 1 < length l → l !! (2 * j) = Some k' →
                  Py.lstrip "-" k' ≠ Py.lstrip "-" k) →
         m !! Py.lstrip "-" k = Some v).
Proof.
  intros Hodd. exists (parse_unknown_args l). split_and!.
  - done.
  - unfold parse_unknown_args. by rewrite unknown_pairs_odd.
  - apply parse_unknown_args_size_le.
  - intros Hnd. rewrite <- length_unknown_pairs. apply dict_of_size_NoDup.
    rewrite unknown_pairs_odd, list_fmap_compose by done.
    rewrite unknown_pairs_keys; [done|].
    rewrite length_take. destruct Hodd as [n Hn]. exists n. lia.
  - intros key. split.
    + intros [v (i & k & Hk & Hv & Hkey)%parse_unknown_args_lookup_Some].
      exists i, k. split; [|done]. by apply lookup_lt_Some in Hv.
    + intros (i & k & Hlt & Hk & <-).
      apply lookup_lt_is_Some in Hlt as [v Hv].
      apply (dict_of_lookup_is_Some _ _ i k v).
      by apply unknown_pairs_lookup.
  - intros i k v Hk Hv Hlast. apply (parse_unknown_args_last l i); [done..|].
    intros j k' Hij Hk' Hsome. apply (Hlast j); [done| |done].
    by apply lookup_lt_is_Some.
Qed.

(** C9.  When two even-indexed tokens that both have a following token strip
    to the same key, the mapping has fewer entries than there are pairs, and
    the entry of a key holds the value of the last pair with that key; the
    four tokens [--a 1 -a 2] give a single entry. *)
Theorem parse_unknown_args_duplicate_key (l : list string) :
  (∀ i j ki kj, i < j → l !! (2 * i) = Some ki → l !! (2 * j) = Some kj →
     is_Some (l !! (2 * j + 1)) → Py.lstrip "-" ki = Py.lstrip "-" kj →
     size (parse_unknown_args l) < length l / 2)
  ∧ (∀ i k v, l !! (2 * i) = Some k → l !! (2 * i + 1) = Some v →
       (∀ j k', i < j → l !! (2 * j) = Some k' → is_Some (l !! (2 * j + 1)) →
                Py.lstrip "-" k' ≠ Py.lstrip "-" k) →
       parse_unknown_args l !! Py.lstrip "-" k = Some v)
  ∧ (Nat.Even (length ["--a"; "1"; "-a"; "2"])
     ∧ parse_unknown_args ["--a"; "1"; "-a"; "2"] = {["a" := "2"]}
     ∧ size (parse_unknown_args ["--a"; "1"; "-a"; "2"])
       < length ["--a"; "1"; "-a"; "2"] / 2).
Proof.
  split_and!.
  - intros i j ki kj Hij Hi Hj [vj Hvj] Hkey.
    assert (is_Some (l !! (2 * i + 1))) as [vi Hvi].
    { apply lookup_lt_is_Some. apply lookup_lt_Some in Hj. lia. }
    rewrite <- length_unknown_pairs.
    apply (dict_of_size_lt _ _ i j ki vi kj vj); [done| | |done];
      by apply unknown_pairs_lookup.
  - apply parse_unknown_args_last.
  - by exists 2.
  - by vm_compute.
  - vm_compute. lia.
Qed.

Lemma lstrip_times c n : Py.lstrip c (Py.times c n) = "".
Proof.
  induction n as [|n IH]; [done|]. cbn. by rewrite Ascii.eqb_refl.
Qed.

(** C10.  Only keys are stripped.  Every value of the mapping is the token
    that follows its key token, unchanged; a single pair [k v] gives the one
    entry [lstrip k ↦ v], so [--a --b] gives [a ↦ --b]; and a key token made
    of dashes only becomes the empty key. *)
Theorem parse_unknown_args_values_verbatim :
  (∀ l key v, parse_unknown_args l !! key = Some v →
     ∃ i k, l !! (2 * i) = Some k ∧ l !! (2 * i + 1) = Some v
            ∧ Py.lstrip "-" k = key)
  ∧ (∀ k v, parse_unknown_args [k; v] = {[Py.lstrip "-" k := v]})
  ∧ parse_unknown_args ["--a"; "--b"] = {["a" := "--b"]}
  ∧ (∀ n v, parse_unknown_args [Py.times "-" n; v] = {["" := v]}).
Proof.
  split_and!.
  - apply parse_unknown_args_lookup_Some.
  - intros k v. unfold parse_unknown_args, Py.dict_of. cbn.
    by rewrite insert_empty.
  - unfold parse_unknown_args, Py.dict_of. cbn. by rewrite insert_empty.
  - intros n v. unfold parse_unknown_args, Py.dict_of. cbn.
    by rewrite insert_empty, lstrip_times.
Qed.

(** ** The argument parser *)

Lemma help_options_to_list :
  map_to_list help_options = [("--help", HelpAction); ("-h", HelpAction)].
Proof. by vm_compute. Qed.

(** The tool's own parser knows one short option, so no option string is
    ambiguous for it. *)
Lemma top_option_tuples_short s :
  length (get_option_tuples help_options false s) ≤ 1.
Proof.
  destruct s as [|c0 [|c1 tail]]; [cbn; lia..|].
  unfold get_option_tuples. destruct (is_dash c1) eqn:Hd; [cbn; lia|].
  rewrite help_options_to_list. cbv zeta.
  match goal with |- length (omap ?f _) ≤ 1 => set (g := f) end.
  assert (g ("--help", HelpAction) = None) as Hnone.
  { unfold g, Py.startswith. cbn [fst snd].
    replace (String.eqb "--help" _) with false
      by (symmetry; apply String.eqb_neq; intros [=]).
    cbn [String.prefix].
    destruct (ascii_dec c0 "-"); [|done].
    destruct (ascii_dec c1 "-") as [->|]; [|done].
    by rewrite (Ascii.eqb_refl "-") in Hd || done. }
  cbn [omap list_omap]. rewrite Hnone. destruct (g ("-h", HelpAction)); cbn; lia.
Qed.

Lemma top_parse_optional_total s :
  ∃ o, parse_optional help_options false s = inr o.
Proof.
  unfold parse_optional. destruct s as [|c rest]; [by eexists|].
  destruct (negb (is_dash c)); [by eexists|].
  destruct (help_options !! String c rest); [by eexists|].
  destruct (String.eqb rest ""); [by eexists|].
  match goal with |- context [match ?b with Some _ => _ | None => _ end] =>
    destruct b end; [by eexists|].
  pose proof (top_option_tuples_short (String c rest)) as Hlen.
  destruct (get_option_tuples _ _ _) as [|t [|t' ts]];
    [|by eexists|cbn in Hlen; lia].
  destruct (_ && _); [by eexists|]. destruct (Py.contains _ _); by eexists.
Qed.

Section ParserFacts.

Context {service exn : Type}.
Implicit Types opts : gmap string action.
Implicit Types ns : namespace service exn.

Lemma arg_strings_pattern_fst opts ab l ps :
  arg_strings_pattern opts ab l = inr ps → ps.*1 = l.
Proof.
  revert ps. induction l as [|s l IH]; intros ps; cbn.
  - by intros [= <-].
  - destruct (String.eqb s "--").
    + intros [= <-]. cbn. f_equal. clear IH.
      induction l as [|x l IH]; cbn; by f_equal.
    + destruct (parse_optional opts ab s); [done|].
      destruct (arg_strings_pattern opts ab l); [done|].
      intros [= <-]. cbn. f_equal. by apply IH.
Qed.

Lemma top_pattern_total l :
  ∃ ps, arg_strings_pattern help_options false l = inr ps.
Proof.
  induction l as [|s l [ps IH]]; cbn; [by eexists|].
  destruct (String.eqb s "--"); [by eexists|].
  destruct (top_parse_optional_total s) as [o ->]. rewrite IH. by eexists.
Qed.

(** A word that does not start with a dash is an argument for any parser. *)
Lemma parse_optional_word opts ab name :
  Py.startswith name "-" = false →
  parse_optional opts ab name = inr None ∧ String.eqb name "--" = false.
Proof.
  destruct name as [|c r]; [done|]. unfold Py.startswith. cbn.
  destruct (ascii_dec "-" c) as [<-|Hne]; [by destruct r|]. intros _.
  unfold is_dash. by destruct (Ascii.eqb_spec c "-") as [->|].
Qed.

End ParserFacts.

(** ** The router *)

Section RouterFacts.

Context {service exn : Type} (run : service → option exn).
Implicit Types reg : gmap string (subparser service exn).
Implicit Types ns : namespace service exn.

(** When the first token is a word, the subparsers action receives the whole
    command line. *)
Lemma parse_known_args_word reg name rest :
  Py.startswith name "-" = false →
  parse_known_args reg (name :: rest)
  = take_subparsers (subparsers_action reg) (name :: rest) (Namespace ∅ None) [].
Proof.
  intros Hname. unfold parse_known_args, parse_known_args_from.
  cbn [arg_strings_pattern].
  destruct (parse_optional_word help_options false name Hname) as [-> ->].
  destruct (top_pattern_total rest) as [ps Hps]. rewrite Hps.
  cbn [from_option consume]. by rewrite (arg_strings_pattern_fst _ _ _ _ Hps).
Qed.

(** What [main] does once the parse phase has returned. *)
Lemma main_after_parse reg argv t args unknown_args func :
  parse_known_args reg argv = (t, inr (args, unknown_args)) →
  ns_func args = Some func →
  main run reg argv
  = (t ++ (dispatch run func args (parse_unknown_args unknown_args)).1,
     (dispatch run func args (parse_unknown_args unknown_args)).2).
Proof.
  intros Hparse Hfunc. unfold main. rewrite Hparse.
  unfold mbind at 1, M_bind at 1. cbn beta iota. rewrite Hfunc.
  fold (dispatch run func args (parse_unknown_args unknown_args)).
  by destruct (dispatch _ _ _ _).
Qed.

(** C2.  With no argument no subcommand is selected and the namespace has no
    [func]: [main] prints the help text on standard output and exits with
    status 1; no factory is called and nothing is run. *)
Theorem main_no_arguments reg :
  main run reg [] = ([PrintHelp None], inl (SystemExit 1))
  ∧ exit_status (main run reg []) = 1%Z
  ∧ (∀ func args kwargs, CallFunc func args kwargs ∉ (main run reg []).1)
  ∧ (∀ s, CallRun s ∉ (main run reg []).1).
Proof.
  assert (main run reg [] = ([PrintHelp None], inl (SystemExit 1))) as ->
    by reflexivity.
  split_and!; [done..| |]; cbn; intros; by rewrite list_elem_of_singleton.
Qed.

(** C3 (amended).  A first token that is a word but not a registered name is
    rejected by the argument parser: the invalid choice is reported on
    standard error and the process exits with status 2, which is not what
    happens with no argument; no factory is called. *)
Theorem main_unregistered_name reg name rest :
  reg !! name = None → Py.startswith name "-" = false →
  main run reg (name :: rest)
  = ([PrintError None (InvalidChoice name)], inl (SystemExit 2))
  ∧ exit_status (main run reg (name :: rest)) = 2%Z
  ∧ main run reg (name :: rest) ≠ main run reg [].
Proof.
  intros Hreg Hname.
  assert (main run reg (name :: rest)
          = ([PrintError None (InvalidChoice name)], inl (SystemExit 2))) as ->.
  { unfold main. rewrite parse_known_args_word by done.
    unfold take_subparsers, subparsers_action. by rewrite Hreg. }
  by split_and!.
Qed.

(** C5.  A command line that is one registered name makes [main] call the
    factory of that subcommand once, with no attribute set and an empty
    mapping of extra options, and call [run] once on the service the factory
    returns. *)
Theorem main_registered_name reg name sp s :
  reg !! name = Some sp → Py.startswith name "-" = false →
  sp_func sp ∅ ∅ = inr s →
  main run reg [name]
  = ([CallFunc (sp_func sp) ∅ ∅; CallRun s],
     match run s with Some e => inl (Uncaught e) | None => inr tt end).
Proof.
  intros Hreg Hname Hs.
  assert (parse_known_args reg [name]
          = ([], inr (Namespace ∅ (Some (sp_func sp)), []))) as Hparse.
  { rewrite parse_known_args_word by done.
    unfold take_subparsers, subparsers_action. rewrite Hreg. cbn.
    unfold merge_namespace. cbn. by rewrite (left_id_L ∅ (∪)). }
  rewrite (main_after_parse _ _ _ _ _ _ Hparse eq_refl).
  unfold dispatch, call_func. cbn. rewrite Hs. cbn. by destruct (run s).
Qed.

Lemma consume_extras opts prog toks ns extras :
  Forall (λ sp : string * pattern, is_extra sp.2) toks →
  consume (service:=service) (exn:=exn) opts prog None toks ns extras
  = mret (ns, extras ++ toks.*1).
Proof.
  intros Hall. revert extras.
  induction Hall as [|[s p] toks Hp _ IH]; intros extras; cbn.
  - by rewrite app_nil_r.
  - destruct p as [| |[[[a|] option_string] explicit_arg]]; [..|done|];
      cbn; by rewrite IH, <- app_assoc.
Qed.

Lemma parse_optional_dashes opts ab : parse_optional opts ab "--" ≠ inr None.
Proof.
  unfold parse_optional. cbn -[get_option_tuples negative_number].
  destruct (opts !! "--"); [done|].
  by destruct (get_option_tuples _ _ _) as [|? [|? ?]].
Qed.

Lemma sub_pattern_extras opts l :
  Forall (λ s, undeclared_flag opts s ∨ plain_argument opts s) l →
  ∃ ps, arg_strings_pattern opts true l = inr ps
        ∧ Forall (λ sp : string * pattern, is_extra sp.2) ps.
Proof.
  induction 1 as [|s l Hs _ (ps & IH & Hps)]; [by exists []|].
  cbn [arg_strings_pattern]. destruct (String.eqb_spec s "--") as [->|Hne].
  { destruct Hs as [[? _]|Hs]; [done|]. by apply parse_optional_dashes in Hs. }
  rewrite IH. destruct Hs as [[_ ->]|Hs].
  - eexists. split; [done|]. by constructor.
  - unfold plain_argument in Hs. rewrite Hs.
    eexists. split; [done|]. by constructor.
Qed.

Lemma unknown_pairs_tokens_of kvs : unknown_pairs (tokens_of kvs) = kvs.
Proof.
  induction kvs as [|[k v] kvs IH]; [done|].
  change (tokens_of ((k, v) :: kvs)) with (k :: v :: tokens_of kvs).
  by rewrite unknown_pairs_cons, IH.
Qed.

(** C6 (amended).  When the command line is a registered name followed by
    [--key value] pairs whose keys match no flag that the subcommand declares,
    the pairs all end up in the unknown tokens and [main] calls the factory
    of the subcommand with the mapping folded from them as extra options,
    where each stripped key holds the value of its last pair. *)
Theorem main_forwards_unknown_pairs reg name sp kvs :
  reg !! name = Some sp → Py.startswith name "-" = false →
  Forall (λ kv, undeclared_flag (sp_option_string_actions sp) kv.1
                ∧ plain_argument (sp_option_string_actions sp) kv.2) kvs →
  parse_known_args reg (name :: tokens_of kvs)
  = ([], inr (Namespace ∅ (Some (sp_func sp)), tokens_of kvs))
  ∧ main run reg (name :: tokens_of kvs)
    = dispatch run (sp_func sp) (Namespace ∅ (Some (sp_func sp)))
               (parse_unknown_args (tokens_of kvs))
  ∧ (∃ t, (main run reg (name :: tokens_of kvs)).1
          = CallFunc (sp_func sp) ∅ (parse_unknown_args (tokens_of kvs)) :: t)
  ∧ (∀ i k v, kvs !! i = Some (k, v) →
       (∀ j k' v', i < j → kvs !! j = Some (k', v') →
                   Py.lstrip "-" k' ≠ Py.lstrip "-" k) →
       parse_unknown_args (tokens_of kvs) !! Py.lstrip "-" k = Some v).
Proof.
  intros Hreg Hname Hkvs.
  assert (parse_known_args reg (name :: tokens_of kvs)
          = ([], inr (Namespace ∅ (Some (sp_func sp)), tokens_of kvs)))
    as Hparse.
  { rewrite parse_known_args_word by done.
    unfold take_subparsers, subparsers_action. rewrite Hreg.
    unfold parse_known_args_from.
    destruct (sub_pattern_extras (sp_option_string_actions sp) (tokens_of kvs))
      as (ps & Hps & Hextra).
    { unfold tokens_of. apply Forall_bind.
      eapply Forall_impl; [exact Hkvs|]. intros [k v] [Hk Hv]; cbn.
      constructor; [by left|]. constructor; [by right|]. constructor. }
    rewrite Hps, consume_extras by done.
    rewrite (arg_strings_pattern_fst _ _ _ _ Hps). cbn.
    unfold merge_namespace. cbn. by rewrite (left_id_L ∅ (∪)). }
  split; [done|].
  assert (main run reg (name :: tokens_of kvs)
          = dispatch run (sp_func sp) (Namespace ∅ (Some (sp_func sp)))
                     (parse_unknown_args (tokens_of kvs))) as ->.
  { rewrite (main_after_parse _ _ _ _ _ _ Hparse eq_refl).
    cbn [app]. symmetry. apply surjective_pairing. }
  split_and!.
  - done.
  - unfold dispatch, call_func. cbn.
    destruct (sp_func sp ∅ _) as [e|s]; cbn; [by eexists|].
    destruct (run s); by eexists.
  - intros i k v Hi Hlast. unfold parse_unknown_args.
    rewrite unknown_pairs_tokens_of. by apply (dict_of_lookup_last _ _ i).
Qed.

(** C4 (amended).  An odd number of unknown tokens is not validated and is
    no failure: the last token is dropped, the factory is called with the
    mapping of the tokens before it, and the invocation ends in an uncaught
    exception only when the factory or [run] raises one. *)
Theorem main_odd_unknown_args reg argv t args unknown_args func :
  parse_known_args reg argv = (t, inr (args, unknown_args)) →
  ns_func args = Some func →
  Nat.Odd (length unknown_args) →
  let kwargs :=
    parse_unknown_args (take (length unknown_args - 1) unknown_args) in
  main run reg argv
  = (t ++ (dispatch run func args kwargs).1, (dispatch run func args kwargs).2)
  ∧ (∀ e, (main run reg argv).2 = inl (Uncaught e) →
          func (ns_attrs args) kwargs = inl e
          ∨ ∃ s, func (ns_attrs args) kwargs = inr s ∧ run s = Some e).
Proof.
  intros Hparse Hfunc Hodd kwargs.
  assert (parse_unknown_args unknown_args = kwargs) as Hkw.
  { unfold kwargs, parse_unknown_args. by rewrite <- unknown_pairs_odd. }
  rewrite (main_after_parse _ _ _ _ _ _ Hparse Hfunc), Hkw.
  split; [done|]. intros e. unfold dispatch, call_func, call_run. cbn.
  destruct (func (ns_attrs args) kwargs) as [e'|s]; cbn.
  - intros [= ->]. by left.
  - destruct (run s) as [e'|] eqn:Hrun; cbn; [|done].
    intros [= ->]. right. by exists s.
Qed.

(** C7.  [main] catches nothing.  An exception raised by the factory ends the
    invocation right after the one call of the factory, and an exception
    raised by [run] right after the one call of [run]; the same exception
    leaves [main] uncaught and the process status is 1. *)
Theorem main_propagates_errors reg argv t args unknown_args func e :
  parse_known_args reg argv = (t, inr (args, unknown_args)) →
  ns_func args = Some func →
  let kwargs := parse_unknown_args unknown_args in
  (func (ns_attrs args) kwargs = inl e →
     main run reg argv
     = (t ++ [CallFunc func (ns_attrs args) kwargs], inl (Uncaught e))
     ∧ exit_status (main run reg argv) = 1%Z)
  ∧ (∀ s, func (ns_attrs args) kwargs = inr s → run s = Some e →
     main run reg argv
     = (t ++ [CallFunc func (ns_attrs args) kwargs; CallRun s],
        inl (Uncaught e))
     ∧ exit_status (main run reg argv) = 1%Z).
Proof.
  intros Hparse Hfunc kwargs.
  rewrite (main_after_parse _ _ _ _ _ _ Hparse Hfunc). fold kwargs.
  unfold dispatch, call_func, call_run. cbn. split.
  - by intros ->.
  - intros s -> Hrun. cbn. by rewrite Hrun.
Qed.

End RouterFacts.

(** ** The properties at concrete command lines *)

(** C1: the four tokens [--a 1 -a 2] are an even number of tokens, and the
    mapping built from them has one entry, not two. *)
Lemma keeps_every_pair_counterexample :
  Nat.Even (length ["--a"; "1"; "-a"; "2"])
  ∧ ¬ keeps_every_pair ["--a"; "1"; "-a"; "2"].
Proof.
  split; [by exists 2|]. intros [Hsize _].
  vm_compute in Hsize. discriminate Hsize.
Qed.

Lemma parse_unknown_args_even_witness :
  size (parse_unknown_args ["--verbose"; "true"; "--n"; "3"])
    ≤ length ["--verbose"; "true"; "--n"; "3"] / 2
  ∧ size (parse_unknown_args ["--verbose"; "true"; "--n"; "3"]) = 2
  ∧ parse_unknown_args ["--verbose"; "true"; "--n"; "3"] !! "n" = Some "3".
Proof.
  destruct (parse_unknown_args_even ["--verbose"; "true"; "--n"; "3"])
    as (Hle & Hsize & _ & Hlast).
  { exists 2. reflexivity. }
  split; [exact Hle|]. split.
  - apply Hsize. apply (bool_decide_unpack _). vm_compute. reflexivity.
  - apply (Hlast 1 "--n" "3"); [reflexivity..|].
    intros j k' Hj Hk'. apply lookup_lt_Some in Hk'. cbn in Hk'. lia.
Defined.

Lemma parse_unknown_args_odd_witness :
  parse_unknown_args ["--a"; "1"; "--b"] = parse_unknown_args ["--a"; "1"]
  ∧ parse_unknown_args ["--a"; "1"; "--b"] !! "a" = Some "1"
  ∧ parse_unknown_args ["--a"; "1"; "--b"] !! "b" = None
  ∧ size (parse_unknown_args ["--a"; "1"; "--b"]) = 1.
Proof.
  destruct (parse_unknown_args_odd ["--a"; "1"; "--b"])
    as (m & Hm & Htake & _ & Hsize & Hdom & Hlast).
  { exists 1. reflexivity. }
  rewrite Hm. split_and!.
  - exact Htake.
  - apply (Hlast 0 "--a" "1"); [reflexivity..|].
    intros j k' Hj Hlt. cbn in Hlt. lia.
  - apply eq_None_not_Some. intros (i & k & Hlt & Hk & Hkey)%Hdom.
    cbn in Hlt. destruct i as [|i]; [|lia].
    injection Hk as <-. discriminate Hkey.
  - apply Hsize. apply (bool_decide_unpack _). vm_compute. reflexivity.
Defined.

(** C3: [foo] is not a registered name, and [main] does not treat it like an
    empty command line. *)
Lemma unregistered_like_none_counterexample :
  main Example.run Example.commands ["foo"]
  = ([PrintError None (InvalidChoice "foo")], inl (SystemExit 2))
  ∧ main Example.run Example.commands []
    = ([PrintHelp None], inl (SystemExit 1))
  ∧ ¬ unregistered_like_none Example.run Example.commands "foo".
Proof.
  split; [by vm_compute|]. split; [by vm_compute|].
  intros H. assert (Example.commands !! "foo" = None) as Hreg by by vm_compute.
  specialize (H Hreg). vm_compute in H. discriminate H.
Qed.

Lemma main_unregistered_name_witness :
  main Example.run Example.commands ["foo"; "--x"; "1"]
  = ([PrintError None (InvalidChoice "foo")], inl (SystemExit 2))
  ∧ exit_status (main Example.run Example.commands ["foo"; "--x"; "1"]) = 2%Z
  ∧ main Example.run Example.commands ["foo"; "--x"; "1"]
    ≠ main Example.run Example.commands [].
Proof.
  apply (main_unregistered_name Example.run Example.commands "foo" ["--x"; "1"]).
  - vm_compute. reflexivity.
  - reflexivity.
Defined.

(** C4: one unknown token after [test] is an odd number of unknown tokens,
    and the invocation completes. *)
Lemma odd_unknown_fails_counterexample :
  Nat.Odd (length ["--x"])
  ∧ main Example.run Example.commands ["test"; "--x"]
    = ([CallFunc (λ _ _, inr "TestCommand") ∅ ∅; CallRun "TestCommand"],
       inr tt)
  ∧ ¬ odd_unknown_fails Example.run Example.commands ["test"; "--x"].
Proof.
  split; [by exists 0|]. split; [by vm_compute|]. intros H.
  destruct (H [] (Namespace ∅ (Some (λ _ _, inr "TestCommand"))) ["--x"])
    as [e He].
  - by vm_compute.
  - by exists 0.
  - vm_compute in He. discriminate He.
Qed.

Lemma main_odd_unknown_args_witness :
  main Example.run Example.commands ["test"; "--x"]
  = ([CallFunc (λ _ _, inr "TestCommand") ∅ ∅; CallRun "TestCommand"],
     inr tt).
Proof.
  refine (proj1 (main_odd_unknown_args Example.run Example.commands
                   ["test"; "--x"] []
                   (Namespace ∅ (Some (λ _ _, inr "TestCommand"))) ["--x"]
                   (λ _ _, inr "TestCommand") _ _ _)).
  - vm_compute. reflexivity.
  - reflexivity.
  - exists 0. reflexivity.
Defined.

(** C5: the command line [env]. *)
Lemma main_registered_name_witness :
  main Example.run Example.commands ["env"]
  = ([CallFunc Example.env_factory ∅ ∅; CallRun "EnvironmentCommand"], inr tt).
Proof.
  apply (main_registered_name Example.run Example.commands "env"
           (Subparser help_options Example.env_factory) "EnvironmentCommand").
  - vm_compute. reflexivity.
  - reflexivity.
  - vm_compute. reflexivity.
Defined.

(** C6: the command line [test --verbose true], where [--verbose] is none of
    the flags of [test]. *)
Lemma main_forwards_unknown_pairs_witness :
  parse_known_args Example.commands ["test"; "--verbose"; "true"]
  = ([], inr (Namespace ∅ (Some (λ _ _, inr "TestCommand")),
              ["--verbose"; "true"]))
  ∧ parse_unknown_args ["--verbose"; "true"] = {["verbose" := "true"]}
  ∧ (main Example.run Example.commands ["test"; "--verbose"; "true"]).1
    = [CallFunc (λ _ _, inr "TestCommand") ∅ {["verbose" := "true"]};
       CallRun "TestCommand"].
Proof.
  destruct (main_forwards_unknown_pairs Example.run Example.commands "test"
              (Subparser Example.test_options (λ _ _, inr "TestCommand"))
              [("--verbose", "true")]) as (Hparse & Hmain & _ & _).
  - vm_compute. reflexivity.
  - reflexivity.
  - constructor; [|constructor].
    split; [split; [discriminate|]|]; vm_compute; reflexivity.
  - split; [exact Hparse|]. split; [vm_compute; reflexivity|].
    change (tokens_of [("--verbose", "true")]) with ["--verbose"; "true"]
      in Hmain.
    rewrite Hmain. vm_compute. reflexivity.
Defined.

(** C6: with a repeated key only the last of the two pairs is forwarded, and
    an unknown option in front of the name shifts the pairing. *)
Lemma forwards_every_pair_counterexample :
  Forall (λ kv, undeclared_flag Example.test_options kv.1
                ∧ plain_argument Example.test_options kv.2)
         [("--k", "1"); ("--k", "2")]
  ∧ (main Example.run Example.commands ["test"; "--k"; "1"; "--k"; "2"]).1
    = [CallFunc (λ _ _, inr "TestCommand") ∅ {["k" := "2"]};
       CallRun "TestCommand"]
  ∧ (main Example.run Example.commands ["--x"; "env"; "--k"; "v"]).1
    = [CallFunc Example.env_factory ∅ {["x" := "--k"]}]
  ∧ ¬ forwards_every_pair Example.run Example.commands "test"
        [("--k", "1"); ("--k", "2")].
Proof.
  split_and!.
  - repeat constructor; try discriminate; by vm_compute.
  - by vm_compute.
  - by vm_compute.
  - intros H. destruct (H "--k" "1") as (func & args & kwargs & t & Ht & Hk).
    { apply list_elem_of_here. }
    vm_compute in Ht. injection Ht as _ _ <- _.
    vm_compute in Hk. discriminate Hk.
Qed.

(** C7: [env] takes no extra option, so its factory raises on [--x 1]; the
    run of the delete command raises. *)
Lemma main_propagates_errors_witness :
  (main Example.run Example.commands ["env"; "--x"; "1"]
   = ([CallFunc Example.env_factory ∅ {["x" := "1"]}],
      inl (Uncaught "TypeError"))
   ∧ exit_status (main Example.run Example.commands ["env"; "--x"; "1"]) = 1%Z)
  ∧ (main Example.run Example.commands ["delete_from_hub"]
     = ([CallFunc (λ _ _, inr "DeleteFromHubCommand") ∅ ∅;
         CallRun "DeleteFromHubCommand"],
        inl (Uncaught "HTTPError"))
     ∧ exit_status (main Example.run Example.commands ["delete_from_hub"])
       = 1%Z).
Proof.
  split.
  - refine (proj1 (main_propagates_errors Example.run Example.commands
                     ["env"; "--x"; "1"] []
                     (Namespace ∅ (Some Example.env_factory)) ["--x"; "1"]
                     Example.env_factory "TypeError" _ _) _).
    + vm_compute. reflexivity.
    + reflexivity.
    + vm_compute. reflexivity.
  - refine (proj2 (main_propagates_errors Example.run Example.commands
                     ["delete_from_hub"] []
                     (Namespace ∅ (Some (λ _ _, inr "DeleteFromHubCommand"))) []
                     (λ _ _, inr "DeleteFromHubCommand") "HTTPError" _ _)
                  "DeleteFromHubCommand" _ _).
    + vm_compute. reflexivity.
    + reflexivity.
    + reflexivity.
    + reflexivity.
Defined.

(** * Further properties of [parse_unknown_args] *)

Lemma lstrip_no_leading c s : Py.startswith (Py.lstrip c s) (String c "") = false.
Proof.
  unfold Py.startswith. induction s as [|a s IH]; [done|]. cbn.
  destruct (Ascii.eqb_spec a c) as [->|Hne]; [exact IH|]. cbn.
  destruct (ascii_dec c a) as [->|]; [done|done].
Qed.

Lemma lstrip_id c s : Py.startswith s (String c "") = false → Py.lstrip c s = s.
Proof.
  unfold Py.startswith. destruct s as [|a s]; [done|]. cbn.
  destruct (ascii_dec c a) as [->|Hne]; [by destruct s|].
  intros _. by destruct (Ascii.eqb_spec a c) as [->|].
Qed.

Lemma parse_unknown_args_tokens_of kvs :
  parse_unknown_args (tokens_of kvs) = Py.dict_of (Py.lstrip "-") kvs.
Proof. unfold parse_unknown_args. by rewrite unknown_pairs_tokens_of. Qed.

Lemma unknown_pairs_app l1 l2 :
  Nat.Even (length l1) →
  unknown_pairs (l1 ++ l2) = unknown_pairs l1 ++ unknown_pairs l2.
Proof.
  induction l1 as [| x | x y l1 IH] using list_pair_ind; intros Hev.
  - done.
  - destruct Hev as [n Hn]. cbn in Hn. lia.
  - cbn [app]. rewrite !unknown_pairs_cons. cbn [app]. f_equal. apply IH.
    destruct Hev as [n Hn]. cbn [length] in Hn. exists (n - 1). lia.
Qed.

Section DictOfMore.

Context {A V : Type} (key_of : A → string).
Implicit Types kvs : list (A * V).

Lemma dict_of_app kvs1 kvs2 :
  Py.dict_of key_of (kvs1 ++ kvs2)
  = Py.dict_of key_of kvs2 ∪ Py.dict_of key_of kvs1.
Proof.
  induction kvs2 as [|[k v] kvs2 IH] using rev_ind.
  - by rewrite app_nil_r, dict_of_nil, (left_id_L ∅ (∪)).
  - by rewrite app_assoc, !dict_of_snoc, IH, insert_union_l.
Qed.

(** With distinct keys an entry is there exactly when an item gives it. *)
Lemma dict_of_lookup_NoDup kvs key v :
  NoDup (key_of ∘ fst <$> kvs) →
  Py.dict_of key_of kvs !! key = Some v ↔
  ∃ k, (k, v) ∈ kvs ∧ key_of k = key.
Proof.
  intros Hnd. split.
  - intros (i & k & Hi & Hk)%dict_of_lookup_Some.
    exists k. split; [by eapply list_elem_of_lookup_2|done].
  - intros (k & [i Hi]%list_elem_of_lookup_1 & <-).
    apply (dict_of_lookup_last _ _ i); [done|].
    intros j k' v' Hij Hj Hkey.
    assert (i = j) as ->; [|lia].
    eapply NoDup_lookup; [exact Hnd|..]; rewrite list_lookup_fmap.
    + by rewrite Hi.
    + rewrite Hj. cbn. by rewrite Hkey.
Qed.

End DictOfMore.

(** X1.  The mapping is empty exactly when there are fewer than two tokens:
    no token, or a single token that has no value after it. *)
Theorem parse_unknown_args_empty_iff (l : list string) :
  parse_unknown_args l = ∅ ↔ length l < 2.
Proof.
  split.
  - destruct l as [|k [|v l]]; [cbn; lia..|]. intros Hempty. exfalso.
    assert (is_Some (parse_unknown_args (k :: v :: l) !! Py.lstrip "-" k))
      as [w Hw].
    { unfold parse_unknown_args. rewrite unknown_pairs_cons.
      by apply (dict_of_lookup_is_Some _ _ 0 k v). }
    by rewrite Hempty, lookup_empty in Hw.
  - destruct l as [|k [|v l]]; cbn; [done..|lia].
Qed.

(** X2.  No key of the mapping starts with a dash. *)
Theorem parse_unknown_args_keys_no_dash (l : list string) (key : string) :
  is_Some (parse_unknown_args l !! key) → Py.startswith key "-" = false.
Proof.
  intros [v (i & k & _ & _ & <-)%parse_unknown_args_lookup_Some].
  apply lstrip_no_leading.
Qed.

(** X3.  The number of leading dashes of a key token does not matter: two
    token lists whose pairs have the same values and the same keys up to
    leading dashes give the same mapping. *)
Theorem parse_unknown_args_dashes_irrelevant (kvs kvs' : list (string * string)) :
  Forall2 (λ a b, Py.lstrip "-" a.1 = Py.lstrip "-" b.1 ∧ a.2 = b.2) kvs kvs' →
  parse_unknown_args (tokens_of kvs) = parse_unknown_args (tokens_of kvs').
Proof.
  intros Hall. rewrite !parse_unknown_args_tokens_of. unfold Py.dict_of.
  generalize (∅ : gmap string string).
  induction Hall as [|[k v] [k' v'] kvs kvs' [Hk Hv] _ IH]; intros d; [done|].
  cbn in *. by rewrite Hk, Hv, IH.
Qed.

(** X4.  Folding a concatenation: after an even number of tokens the pairing
    starts afresh, and the entries of the later tokens override those of the
    earlier ones. *)
Theorem parse_unknown_args_app (l1 l2 : list string) :
  Nat.Even (length l1) →
  parse_unknown_args (l1 ++ l2)
  = parse_unknown_args l2 ∪ parse_unknown_args l1.
Proof.
  intros Hev. unfold parse_unknown_args.
  by rewrite unknown_pairs_app, dict_of_app.
Qed.

(** X5.  Round trip: spelling a mapping whose keys do not start with a dash
    as [--key value] tokens and folding the tokens gives the mapping back. *)
Theorem parse_unknown_args_option_tokens (m : gmap string string) :
  (∀ key, is_Some (m !! key) → Py.startswith key "-" = false) →
  parse_unknown_args (option_tokens m) = m.
Proof.
  intros Hkeys. unfold option_tokens. rewrite parse_unknown_args_tokens_of.
  assert (∀ kv, kv ∈ map_to_list m →
            Py.lstrip "-" ("--" +:+ kv.1) = kv.1) as Hstrip.
  { intros [k v] Hin%elem_of_map_to_list.
    change (Py.lstrip "-" k = k). apply lstrip_id, Hkeys. by eexists. }
  assert (Py.lstrip "-" ∘ fst
            <$> ((λ kv : string * string, ("--" +:+ kv.1, kv.2))
                   <$> map_to_list m)
          = (map_to_list m).*1) as Hfst.
  { rewrite <- list_fmap_compose. apply list_fmap_ext.
    intros i kv Hi. apply Hstrip. by eapply list_elem_of_lookup_2. }
  apply map_eq. intros key. apply option_eq. intros v.
  rewrite dict_of_lookup_NoDup
    by (rewrite Hfst; apply NoDup_fst_map_to_list).
  rewrite <- elem_of_map_to_list. split.
  - intros (k & ([k0 v0] & [= -> ->] & Hin)%list_elem_of_fmap & <-).
    pose proof (Hstrip (k0, v0) Hin) as Hk0. cbn [fst] in Hk0. by rewrite Hk0.
  - intros Hin. exists ("--" +:+ key). split.
    + apply list_elem_of_fmap. by exists (key, v).
    + exact (Hstrip (key, v) Hin).
Qed.

(** X6.  When the stripped keys are pairwise distinct, the order of the pairs
    does not matter. *)
Theorem parse_unknown_args_permutation (kvs kvs' : list (string * string)) :
  kvs ≡ₚ kvs' →
  NoDup (Py.lstrip "-" ∘ fst <$> kvs) →
  parse_unknown_args (tokens_of kvs) = parse_unknown_args (tokens_of kvs').
Proof.
  intros Hperm Hnd. rewrite !parse_unknown_args_tokens_of.
  assert (NoDup (Py.lstrip "-" ∘ fst <$> kvs')) as Hnd'.
  { by rewrite <- Hperm. }
  apply map_eq. intros key. apply option_eq. intros v.
  rewrite !dict_of_lookup_NoDup by done.
  by setoid_rewrite Hperm.
Qed.

(** * Further properties of the router *)

Section Outcomes.

Context {service exn : Type} (run : service → option exn).
Implicit Types reg : gmap string (subparser service exn).
Implicit Types ns : namespace service exn.
Implicit Types opts : gmap string action.

Lemma parse_stops_ret {A} (x : A) : parse_stops (mret x : @M service exn A).
Proof. left. by exists x. Qed.

Lemma parse_stops_error {A} prog e :
  parse_stops (error prog e : @M service exn A).
Proof. right. right. by exists prog, e. Qed.

Lemma parse_stops_bind {A B} (m : @M service exn A) (k : A → @M service exn B) :
  parse_stops m → (∀ x, parse_stops (k x)) → parse_stops (m ≫= k).
Proof.
  intros [[x ->]|[[prog ->]|(prog & e & ->)]] Hk.
  - unfold mbind, M_bind. specialize (Hk x). by destruct (k x).
  - right. left. by exists prog.
  - right. right. by exists prog, e.
Qed.

Lemma take_actions_stops opts prog ns action_tuples :
  parse_stops (take_actions (service:=service) (exn:=exn) prog ns action_tuples).
Proof.
  revert ns. induction action_tuples as [|[a args] tuples IH]; intros ns.
  - apply parse_stops_ret.
  - cbn [take_actions]. apply parse_stops_bind; [|done].
    destruct a; [|apply parse_stops_ret..]. right. left. by exists prog.
Qed.

Lemma consume_stops opts prog subparsers toks ns extras :
  (∀ act vs, subparsers = Some act → parse_stops (act vs)) →
  parse_stops (consume opts prog subparsers toks ns extras).
Proof.
  intros Hact. remember (length toks) as n eqn:Hn.
  revert toks ns extras Hn.
  induction n as [n IH] using lt_wf_ind; intros toks ns extras ->.
  destruct toks as [|[s p] rest]; [apply parse_stops_ret|].
  assert (∀ ns' extras', parse_stops
            (consume opts prog subparsers rest ns' extras')) as IHrest.
  { intros ns' extras'. eapply IH; [|done]. cbn. lia. }
  assert (∀ vs act, subparsers = Some act →
            parse_stops (take_subparsers act vs ns extras)) as Hsub.
  { intros vs act Heq. apply parse_stops_bind; [by eapply Hact|].
    intros [sub unrecognized]. apply parse_stops_ret. }
  destruct p as [| |[[[a|] option_string] explicit_arg]]; cbn [consume].
  - destruct subparsers as [act|]; [|done]. by apply Hsub.
  - destruct subparsers as [act|]; [|done]. destruct rest; [done|].
    by apply Hsub.
  - destruct (match explicit_arg with
              | Some e => consume_explicit opts a option_string e []
              | None => inr ([], Some a)
              end) as [err|[tuples [a'|]]].
    + apply parse_stops_error.
    + destruct (takes_argument a').
      * destruct rest as [|[v [| |t]] rest']; try apply parse_stops_error.
        apply parse_stops_bind; [apply (take_actions_stops opts)|].
        intros ns'. eapply IH; [|done]. cbn. lia.
      * apply parse_stops_bind; [apply (take_actions_stops opts)|done].
    + apply parse_stops_bind; [apply (take_actions_stops opts)|done].
  - done.
Qed.

Lemma parse_known_args_from_stops opts ab prog subparsers ns args :
  (∀ act vs, subparsers = Some act → parse_stops (act vs)) →
  parse_stops (parse_known_args_from opts ab prog subparsers ns args).
Proof.
  intros Hact. unfold parse_known_args_from.
  destruct (arg_strings_pattern opts ab args);
    [apply parse_stops_error|by apply consume_stops].
Qed.

(** The parse phase prints at most one text, and only when it exits. *)
Lemma parse_known_args_stops reg argv : parse_stops (parse_known_args reg argv).
Proof.
  apply parse_known_args_from_stops. intros act vs [= <-].
  unfold subparsers_action. destruct vs as [|name vs]; [apply parse_stops_ret|].
  destruct (reg !! name); [|apply parse_stops_error].
  by apply parse_known_args_from_stops.
Qed.

(** The three ways [dispatch] can end. *)
Lemma dispatch_outcomes func args kwargs :
  (∃ e, func (ns_attrs args) kwargs = inl e
        ∧ dispatch run func args kwargs
          = ([CallFunc func (ns_attrs args) kwargs], inl (Uncaught e)))
  ∨ (∃ s e, func (ns_attrs args) kwargs = inr s ∧ run s = Some e
            ∧ dispatch run func args kwargs
              = ([CallFunc func (ns_attrs args) kwargs; CallRun s],
                 inl (Uncaught e)))
  ∨ (∃ s, func (ns_attrs args) kwargs = inr s ∧ run s = None
          ∧ dispatch run func args kwargs
            = ([CallFunc func (ns_attrs args) kwargs; CallRun s], inr tt)).
Proof.
  unfold dispatch, call_func, call_run. cbn.
  destruct (func (ns_attrs args) kwargs) as [e|s]; cbn; [left; by exists e|].
  right. destruct (run s) as [e|] eqn:Hrun; cbn; [left|right].
  - by exists s, e.
  - by exists s.
Qed.

(** Every run of [main] stops in the parse phase, stops for want of a
    subcommand, or is a dispatch on the folded unknown tokens. *)
Lemma main_outcomes reg argv :
  (∃ prog, main run reg argv = ([PrintHelp prog], inl (SystemExit 0)))
  ∨ (∃ prog e, main run reg argv = ([PrintError prog e], inl (SystemExit 2)))
  ∨ main run reg argv = ([PrintHelp None], inl (SystemExit 1))
  ∨ (∃ func args unknown_args,
       main run reg argv
       = dispatch run func args (parse_unknown_args unknown_args)).
Proof.
  destruct (parse_known_args_stops reg argv)
    as [[[args unknown_args] Hp]|[[prog Hp]|(prog & e & Hp)]].
  - destruct (ns_func args) as [func|] eqn:Hfunc.
    + right. right. right. exists func, args, unknown_args.
      rewrite (main_after_parse run _ _ _ _ _ _ Hp Hfunc).
      cbn [app]. symmetry. apply surjective_pairing.
    + right. right. left. unfold main. rewrite Hp.
      unfold mbind at 1, M_bind at 1. cbn beta iota. by rewrite Hfunc.
  - left. exists prog. unfold main. by rewrite Hp.
  - right. left. exists prog, e. unfold main. by rewrite Hp.
Qed.

(** X7.  A run of [main] in which no factory is called ends in one of three
    ways: the parser printed a help text and exited with status 0, the parser
    reported an error and exited with status 2, or no subcommand was selected
    and [main] printed the help text of the tool and exited with status 1. *)
Theorem main_stops_without_call reg argv :
  (∀ func args kwargs, CallFunc func args kwargs ∉ (main run reg argv).1) →
  (∃ prog, main run reg argv = ([PrintHelp prog], inl (SystemExit 0)))
  ∨ (∃ prog e, main run reg argv = ([PrintError prog e], inl (SystemExit 2)))
  ∨ main run reg argv = ([PrintHelp None], inl (SystemExit 1)).
Proof.
  intros Hnocall.
  destruct (main_outcomes reg argv)
    as [Hm|[Hm|[Hm|(func & args & u & Hm)]]]; [by left|right; by left|auto|].
  exfalso. apply (Hnocall func (ns_attrs args) (parse_unknown_args u)).
  rewrite Hm.
  destruct (dispatch_outcomes func args (parse_unknown_args u))
    as [(e & _ & ->)|[(s & e & _ & _ & ->)|(s & _ & _ & ->)]];
    apply list_elem_of_here.
Qed.

(** X8.  Call discipline.  A call of a factory is the first event of the run
    and the only call of a factory; [run] is called at most once, right after
    the factory, on the service the factory returned. *)
Theorem main_call_discipline reg argv :
  (∀ func args kwargs, CallFunc func args kwargs ∈ (main run reg argv).1 →
     (main run reg argv).1 = [CallFunc func args kwargs]
     ∨ ∃ s, (main run reg argv).1 = [CallFunc func args kwargs; CallRun s]
            ∧ func args kwargs = inr s)
  ∧ (∀ s, CallRun s ∈ (main run reg argv).1 →
       ∃ func args kwargs,
         (main run reg argv).1 = [CallFunc func args kwargs; CallRun s]
         ∧ func args kwargs = inr s).
Proof.
  destruct (main_outcomes reg argv)
    as [[prog ->]|[(prog & e & ->)|[->|(func & args & u & ->)]]];
    [split; cbn; intros *; rewrite list_elem_of_singleton; done..|].
  destruct (dispatch_outcomes func args (parse_unknown_args u))
    as [(e & Hf & ->)|[(s & e & Hf & _ & ->)|(s & Hf & _ & ->)]]; cbn; split.
  - intros f a k [= -> -> ->]%list_elem_of_singleton. by left.
  - intros s. by rewrite list_elem_of_singleton.
  - intros f a k [[= -> -> ->]|[=]%list_elem_of_singleton]%elem_of_cons.
    right. by exists s.
  - intros s' [[=]|[= ->]%list_elem_of_singleton]%elem_of_cons. by eexists _, _, _.
  - intros f a k [[= -> -> ->]|[=]%list_elem_of_singleton]%elem_of_cons.
    right. by exists s.
  - intros s' [[=]|[= ->]%list_elem_of_singleton]%elem_of_cons. by eexists _, _, _.
Qed.

(** X9.  [main] returns normally only when it has called one factory, the
    factory has returned a service, and the one call of [run] on that service
    has returned. *)
Theorem main_returns_normally reg argv :
  (main run reg argv).2 = inr tt →
  ∃ func args kwargs s,
    main run reg argv = ([CallFunc func args kwargs; CallRun s], inr tt)
    ∧ func args kwargs = inr s ∧ run s = None.
Proof.
  destruct (main_outcomes reg argv)
    as [[prog ->]|[(prog & e & ->)|[->|(func & args & u & ->)]]];
    [done..|].
  destruct (dispatch_outcomes func args (parse_unknown_args u))
    as [(e & _ & ->)|[(s & e & _ & _ & ->)|(s & Hf & Hrun & ->)]];
    [done..|].
  intros _. by eexists _, _, _, s.
Qed.

(** X10.  No factory is ever called with an option name that starts with a
    dash. *)
Theorem main_kwargs_no_dash reg argv func args kwargs key :
  CallFunc func args kwargs ∈ (main run reg argv).1 →
  is_Some (kwargs !! key) → Py.startswith key "-" = false.
Proof.
  intros Hin [v Hv].
  assert (∃ u, kwargs = parse_unknown_args u) as [u ->].
  { destruct (main_outcomes reg argv)
      as [[prog Hm]|[(prog & e & Hm)|[Hm|(f & a & u & Hm)]]];
      rewrite Hm in Hin;
      [cbn in Hin; apply list_elem_of_singleton in Hin; discriminate Hin..|].
    exists u.
    destruct (dispatch_outcomes f a (parse_unknown_args u))
      as [(e & _ & Hd)|[(s & e & _ & _ & Hd)|(s & _ & _ & Hd)]];
      rewrite Hd in Hin; cbn in Hin.
    - by apply list_elem_of_singleton in Hin as [= _ _ ->].
    - apply elem_of_cons in Hin as [[= _ _ ->]|Hin]; [done|].
      apply list_elem_of_singleton in Hin. discriminate Hin.
    - apply elem_of_cons in Hin as [[= _ _ ->]|Hin]; [done|].
      apply list_elem_of_singleton in Hin. discriminate Hin. }
  apply parse_unknown_args_lookup_Some in Hv as (i & k & _ & _ & <-).
  apply lstrip_no_leading.
Qed.

End Outcomes.

Section Flags.

Context {service exn : Type} (run : service → option exn).
Implicit Types reg : gmap string (subparser service exn).
Implicit Types ns : namespace service exn.
Implicit Types opts : gmap string action.

Lemma M_bind_assoc {A B C} (m : @M service exn A)
    (f : A → @M service exn B) (g : B → @M service exn C) :
  (m ≫= f) ≫= g = m ≫= (λ x, f x ≫= g).
Proof.
  destruct m as [t [h|x]]; [done|]. unfold mbind, M_bind.
  destruct (f x) as [t' [h'|y]]; [done|].
  destruct (g y) as [t'' r]. by rewrite app_assoc.
Qed.

Lemma M_bind_inr {A B} (t : list (event service exn)) (x : A)
    (k : A → @M service exn B) :
  ((t, inr x) : @M service exn A) ≫= k = (t ++ (k x).1, (k x).2).
Proof. unfold mbind, M_bind. by destruct (k x). Qed.

Lemma M_bind_ret {A B} (x : A) (k : A → @M service exn B) : mret x ≫= k = k x.
Proof. unfold mret, M_ret. rewrite M_bind_inr. by destruct (k x). Qed.

(** Extras that are already there stay in front of what [consume] adds. *)
Lemma consume_leading opts prog subparsers toks ns lead extras :
  consume opts prog subparsers toks ns (lead ++ extras)
  = (r ← consume opts prog subparsers toks ns extras; mret (r.1, lead ++ r.2)).
Proof.
  remember (length toks) as n eqn:Hn. revert toks ns extras Hn.
  induction n as [n IH] using lt_wf_ind; intros toks ns extras ->.
  destruct toks as [|[s p] rest]; [done|].
  assert (∀ ns' extras',
            consume opts prog subparsers rest ns' (lead ++ extras')
            = (r ← consume opts prog subparsers rest ns' extras';
               mret (r.1, lead ++ r.2))) as IHrest.
  { intros ns' extras'. eapply IH; [|done]. cbn. lia. }
  assert (∀ act vs,
            take_subparsers act vs ns (lead ++ extras)
            = (r ← take_subparsers act vs ns extras;
               mret (r.1, lead ++ r.2))) as Hsub.
  { intros act vs. unfold take_subparsers. rewrite M_bind_assoc.
    destruct (act vs) as [t [h|[sub unrecognized]]]; [done|].
    cbn. by rewrite !app_nil_r, app_assoc. }
  assert (∀ tuples rest',
            (∀ ns' extras',
               consume opts prog subparsers rest' ns' (lead ++ extras')
               = (r ← consume opts prog subparsers rest' ns' extras';
                  mret (r.1, lead ++ r.2))) →
            (ns' ← take_actions prog ns tuples;
             consume opts prog subparsers rest' ns' (lead ++ extras))
            = (r ← (ns' ← take_actions prog ns tuples;
                    consume opts prog subparsers rest' ns' extras);
               mret (r.1, lead ++ r.2))) as Htake.
  { intros tuples rest' Hrest'. rewrite M_bind_assoc.
    destruct (take_actions prog ns tuples) as [t [h|ns']]; [done|].
    unfold mbind at 1 3, M_bind at 1 3. cbn beta iota. by rewrite Hrest'. }
  destruct p as [| |[[[a|] option_string] explicit_arg]]; cbn [consume].
  - destruct subparsers as [act|]; [apply Hsub|].
    by rewrite <- app_assoc, IHrest.
  - destruct subparsers as [act|].
    + destruct rest; [|apply Hsub]. by rewrite <- app_assoc, IHrest.
    + by rewrite <- app_assoc, IHrest.
  - destruct (match explicit_arg with
              | Some e => consume_explicit opts a option_string e []
              | None => inr ([], Some a)
              end) as [err|[tuples [a'|]]]; [done| |by apply Htake].
    destruct (takes_argument a'); [|by apply Htake].
    destruct rest as [|[v [| |t]] rest']. 1: done. 2-3: done.
    apply Htake. intros ns' extras'. eapply IH; [|done]. cbn. lia.
  - by rewrite <- app_assoc, IHrest.
Qed.

Lemma parse_optional_declared opts ab flag a :
  Py.startswith flag "-" = true → opts !! flag = Some a →
  parse_optional opts ab flag = inr (Some (Some a, flag, None)).
Proof.
  destruct flag as [|c rest]; [done|].
  unfold Py.startswith. cbn [String.prefix].
  destruct (ascii_dec "-" c) as [<-|]; [|done]. intros _ Ha.
  unfold parse_optional. cbn [is_dash Ascii.eqb Bool.eqb negb]. by rewrite Ha.
Qed.

(** X11.  [-h] or [--help] in front prints the help text of the tool and
    exits with status 0, whatever follows; no factory is called. *)
Theorem main_help_flag reg rest :
  main run reg ("-h" :: rest) = ([PrintHelp None], inl (SystemExit 0))
  ∧ main run reg ("--help" :: rest) = ([PrintHelp None], inl (SystemExit 0)).
Proof.
  assert (∀ h, h = "-h" ∨ h = "--help" →
            parse_known_args reg (h :: rest)
            = ([PrintHelp None], inl (SystemExit 0))) as Hparse.
  { intros h Hh. unfold parse_known_args, parse_known_args_from.
    cbn [arg_strings_pattern].
    assert (String.eqb h "--" = false
            ∧ parse_optional help_options false h
              = inr (Some (Some HelpAction, h, None))) as [-> ->]
      by (destruct Hh as [->| ->]; by vm_compute).
    destruct (top_pattern_total rest) as [ps ->]. reflexivity. }
  unfold main. rewrite !Hparse by auto. done.
Qed.

(** X12.  An option string that the tool does not know, put in front of the
    command line, changes nothing but the unknown tokens, which it leads: it
    is paired with the first token the subcommand leaves over. *)
Theorem main_leading_unknown_option reg u argv :
  unknown_to_tool u →
  parse_known_args reg (u :: argv)
  = (r ← parse_known_args reg argv; mret (r.1, u :: r.2))
  ∧ main run reg (u :: argv)
    = (r ← parse_known_args reg argv;
       match ns_func r.1 with
       | None => print_help None ;; exit 1
       | Some func => dispatch run func r.1 (parse_unknown_args (u :: r.2))
       end).
Proof.
  intros [Hne Hu].
  assert (parse_known_args reg (u :: argv)
          = (r ← parse_known_args reg argv; mret (r.1, u :: r.2))) as Hparse.
  { unfold parse_known_args, parse_known_args_from.
    cbn [arg_strings_pattern].
    destruct (String.eqb_spec u "--") as [|_]; [done|]. rewrite Hu.
    destruct (top_pattern_total argv) as [ps ->].
    cbn [from_option consume].
    exact (consume_leading _ _ _ ps _ [u] []). }
  split; [done|]. unfold main. rewrite Hparse, M_bind_assoc.
  destruct (parse_known_args reg argv) as [t [h|[args unknown_args]]]; [done|].
  rewrite !M_bind_inr. cbn beta. rewrite M_bind_ret. cbn [fst snd].
  by destruct (ns_func args).
Qed.

(** X13.  A flag that the subcommand declares with a value is taken with its
    value into the parsed arguments and is not forwarded: the factory gets
    the value under the flag's destination, and as extra options only the
    pairs that match no declared flag. *)
Theorem main_declared_store_flag reg name sp flag dest v kvs :
  reg !! name = Some sp → Py.startswith name "-" = false →
  sp_option_string_actions sp !! flag = Some (StoreAction dest) →
  Py.startswith flag "-" = true → flag ≠ "--" →
  plain_argument (sp_option_string_actions sp) v →
  Forall (λ kv, undeclared_flag (sp_option_string_actions sp) kv.1
                ∧ plain_argument (sp_option_string_actions sp) kv.2) kvs →
  parse_known_args reg (name :: flag :: v :: tokens_of kvs)
  = ([], inr (Namespace {[dest := [v]]} (Some (sp_func sp)), tokens_of kvs))
  ∧ main run reg (name :: flag :: v :: tokens_of kvs)
    = dispatch run (sp_func sp) (Namespace {[dest := [v]]} (Some (sp_func sp)))
               (parse_unknown_args (tokens_of kvs)).
Proof.
  intros Hreg Hname Hflag Hdash Hne Hv Hkvs.
  assert (parse_known_args reg (name :: flag :: v :: tokens_of kvs)
          = ([], inr (Namespace {[dest := [v]]} (Some (sp_func sp)),
                      tokens_of kvs))) as Hparse.
  { rewrite parse_known_args_word by done.
    unfold take_subparsers, subparsers_action. rewrite Hreg.
    unfold parse_known_args_from. cbn [arg_strings_pattern].
    destruct (String.eqb_spec flag "--") as [|_]; [done|].
    rewrite (parse_optional_declared _ _ _ _ Hdash Hflag).
    destruct (String.eqb_spec v "--") as [->|_];
      [by apply parse_optional_dashes in Hv|].
    unfold plain_argument in Hv. rewrite Hv.
    destruct (sub_pattern_extras (sp_option_string_actions sp) (tokens_of kvs))
      as (ps & Hps & Hextra).
    { unfold tokens_of. apply Forall_bind.
      eapply Forall_impl; [exact Hkvs|]. intros [k w] [Hk Hw]; cbn.
      constructor; [by left|]. constructor; [by right|]. constructor. }
    rewrite Hps. cbn [from_option consume takes_argument app take_actions
                      take_action].
    repeat (rewrite (M_bind_ret (Namespace _ _)); cbn beta).
    rewrite consume_extras by done. rewrite M_bind_ret.
    rewrite (arg_strings_pattern_fst _ _ _ _ Hps).
    unfold merge_namespace. cbn [ns_attrs ns_func app].
    unfold attrs. rewrite (right_id_L ∅ (∪)). by rewrite insert_empty. }
  split; [done|].
  rewrite (main_after_parse run _ _ _ _ _ _ Hparse eq_refl).
  cbn [app]. symmetry. apply surjective_pairing.
Qed.

(** X14.  A flag that the subcommand declares with a value, given last
    without its value, is an error of the subcommand's parser: the process
    exits with status 2 and no factory is called. *)
Theorem main_missing_flag_value reg name sp flag dest :
  reg !! name = Some sp → Py.startswith name "-" = false →
  sp_option_string_actions sp !! flag = Some (StoreAction dest) →
  Py.startswith flag "-" = true → flag ≠ "--" →
  main run reg [name; flag]
  = ([PrintError (Some name) (ExpectedOneArgument flag)], inl (SystemExit 2)).
Proof.
  intros Hreg Hname Hflag Hdash Hne. unfold main.
  rewrite parse_known_args_word by done.
  unfold take_subparsers, subparsers_action. rewrite Hreg.
  unfold parse_known_args_from. cbn [arg_strings_pattern].
  destruct (String.eqb_spec flag "--") as [|_]; [done|].
  by rewrite (parse_optional_declared _ _ _ _ Hdash Hflag).
Qed.

End Flags.

(** ** The further properties at concrete inputs *)

Lemma parse_unknown_args_keys_no_dash_witness :
  is_Some (parse_unknown_args ["--a"; "1"] !! "a")
  ∧ Py.startswith "a" "-" = false.
Proof.
  assert (is_Some (parse_unknown_args ["--a"; "1"] !! "a")) as H.
  { exists "1". vm_compute. reflexivity. }
  split; [exact H|].
  exact (parse_unknown_args_keys_no_dash ["--a"; "1"] "a" H).
Defined.

Lemma parse_unknown_args_dashes_irrelevant_witness :
  parse_unknown_args ["--a"; "1"; "b"; "2"]
  = parse_unknown_args ["-a"; "1"; "---b"; "2"].
Proof.
  apply (parse_unknown_args_dashes_irrelevant
           [("--a", "1"); ("b", "2")] [("-a", "1"); ("---b", "2")]).
  repeat constructor.
Defined.

Lemma parse_unknown_args_app_witness :
  parse_unknown_args (["--a"; "1"] ++ ["--a"; "2"; "--b"; "3"])
  = parse_unknown_args ["--a"; "2"; "--b"; "3"]
    ∪ parse_unknown_args ["--a"; "1"].
Proof.
  apply (parse_unknown_args_app ["--a"; "1"] ["--a"; "2"; "--b"; "3"]).
  exists 1. reflexivity.
Defined.

Lemma parse_unknown_args_option_tokens_witness :
  parse_unknown_args (option_tokens {["verbose" := "true"]})
  = {["verbose" := "true"]}.
Proof.
  apply (parse_unknown_args_option_tokens {["verbose" := "true"]}).
  intros key [v Hv]. apply lookup_singleton_Some in Hv as [<- _].
  reflexivity.
Defined.

Lemma parse_unknown_args_permutation_witness :
  parse_unknown_args ["--a"; "1"; "--b"; "2"]
  = parse_unknown_args ["--b"; "2"; "--a"; "1"].
Proof.
  apply (parse_unknown_args_permutation
           [("--a", "1"); ("--b", "2")] [("--b", "2"); ("--a", "1")]).
  - apply perm_swap.
  - apply (bool_decide_unpack _). vm_compute. reflexivity.
Defined.

Lemma main_stops_without_call_witness :
  (∃ prog, main Example.run Example.commands ["foo"]
           = ([PrintHelp prog], inl (SystemExit 0)))
  ∨ (∃ prog e, main Example.run Example.commands ["foo"]
               = ([PrintError prog e], inl (SystemExit 2)))
  ∨ main Example.run Example.commands ["foo"]
    = ([PrintHelp None], inl (SystemExit 1)).
Proof.
  apply (main_stops_without_call Example.run Example.commands ["foo"]).
  intros func args kwargs Hin. vm_compute in Hin.
  apply list_elem_of_singleton in Hin. discriminate Hin.
Defined.

Lemma main_returns_normally_witness :
  ∃ func args kwargs s,
    main Example.run Example.commands ["env"]
    = ([CallFunc func args kwargs; CallRun s], inr tt)
    ∧ func args kwargs = inr s ∧ Example.run s = None.
Proof.
  apply (main_returns_normally Example.run Example.commands ["env"]).
  vm_compute. reflexivity.
Defined.

Lemma main_kwargs_no_dash_witness :
  is_Some (({["verbose" := "true"]} : gmap string string) !! "verbose")
  ∧ Py.startswith "verbose" "-" = false.
Proof.
  assert (is_Some (({["verbose" := "true"]} : gmap string string)
                     !! "verbose")) as Hkey.
  { exists "true". vm_compute. reflexivity. }
  split; [exact Hkey|].
  refine (main_kwargs_no_dash Example.run Example.commands
            ["test"; "--verbose"; "true"] (λ _ _, inr "TestCommand") ∅
            {["verbose" := "true"]} "verbose" _ Hkey).
  vm_compute. apply list_elem_of_here.
Defined.

Lemma main_leading_unknown_option_witness :
  parse_known_args Example.commands ["--x"; "env"; "1"]
  = ([], inr (Namespace ∅ (Some Example.env_factory), ["--x"; "1"])).
Proof.
  destruct (main_leading_unknown_option Example.run Example.commands "--x"
              ["env"; "1"]) as [Hparse _].
  - split; [discriminate|]. vm_compute. reflexivity.
  - rewrite Hparse. vm_compute. reflexivity.
Defined.

Lemma main_declared_store_flag_witness :
  parse_known_args Example.commands
    ["test"; "--name"; "squad"; "--verbose"; "true"]
  = ([], inr (Namespace {["name" := ["squad"]]}
                        (Some (λ _ _, inr "TestCommand")),
              ["--verbose"; "true"]))
  ∧ main Example.run Example.commands
      ["test"; "--name"; "squad"; "--verbose"; "true"]
    = dispatch Example.run (λ _ _, inr "TestCommand")
        (Namespace {["name" := ["squad"]]} (Some (λ _ _, inr "TestCommand")))
        (parse_unknown_args ["--verbose"; "true"]).
Proof.
  apply (main_declared_store_flag Example.run Example.commands "test"
           (Subparser Example.test_options (λ _ _, inr "TestCommand"))
           "--name" "name" "squad" [("--verbose", "true")]).
  - vm_compute. reflexivity.
  - reflexivity.
  - vm_compute. reflexivity.
  - reflexivity.
  - discriminate.
  - vm_compute. reflexivity.
  - constructor; [|constructor].
    split; [split; [discriminate|]|]; vm_compute; reflexivity.
Defined.

Lemma main_missing_flag_value_witness :
  main Example.run Example.commands ["test"; "--name"]
  = ([PrintError (Some "test") (ExpectedOneArgument "--name")],
     inl (SystemExit 2)).
Proof.
  apply (main_missing_flag_value Example.run Example.commands "test"
           (Subparser Example.test_options (λ _ _, inr "TestCommand"))
           "--name" "name").
  - vm_compute. reflexivity.
  - reflexivity.
  - vm_compute. reflexivity.
  - reflexivity.
  - discriminate.
Defined.
